(** * fuzzysearch: substitution-only near-match search

    A shallow embedding of [fuzzysearch/susbstitutions_only.py] and the
    verification of its matchers against the brute-force definition of a
    near-match window.

    Conventions of the embedding:
    - Python integers are [Z]; positions handed to list indexing are [nat].
    - A sequence is a [list A] over any element type with decidable equality
      that can be used as a dictionary key ([Countable], Python's hashable).
    - An exception is a value of type [exn]; a function that returns is a
      [result], a generator is a [generated]: what it yielded, and the
      exception that ended it, if any. *)

From stdpp Require Import base decidable option numbers list strings countable
  gmap sorting.

Local Open Scope Z_scope.
Local Coercion Z.of_nat : nat >-> Z.

(** ** Exceptions and results *)

Inductive exn :=
  | ValueError (msg : string)
  | ZeroDivisionError
  | IndexError.

Global Instance exn_eq_dec : EqDecision exn.
Proof. solve_decision. Defined.

(** The three [ValueError]s the module raises, under the names the
    specification's error taxonomy gives them. *)
Definition EmptySubsequence : exn :=
  ValueError "Given subsequence is empty!".
Definition NegativeBudget : exn :=
  ValueError "Maximum number of substitutions must be >= 0!".
Definition BudgetExceedsLength : exn :=
  ValueError "The subsequence's length must be greater than max_substitutions!".

Inductive result (T : Type) :=
  | Ok (v : T)
  | Raise (e : exn).
Global Arguments Ok {T} v.
Global Arguments Raise {T} e.

Definition bind {T U} (r : result T) (k : T → result U) : result U :=
  match r with
  | Ok v => k v
  | Raise e => Raise e
  end.

Notation "x ←! r ; k" := (bind r (λ x, k))
  (at level 20, r at level 100, k at level 200, right associativity,
   format "x  ←!  r ;  '/' k").

(** A generator run to exhaustion: the values yielded, in order, and the
    exception that stopped it ([None] when it simply ran out). *)
Definition generated (T : Type) : Type := list T * option exn.

(** [list(gen)] and [for x in gen]: the exception propagates, and the values
    yielded before it are lost to the caller. *)
Definition collect {T} (g : generated T) : result (list T) :=
  match g.2 with
  | Some e => Raise e
  | None => Ok g.1
  end.

(** ** Python built-ins used by the module *)

(** Clamping of one slice bound against a length, as [PySlice_AdjustIndices]
    does for step 1. *)
Definition slice_index (len i : Z) : Z :=
  if decide (i < 0) then Z.max (i + len) 0 else Z.min i len.

(** [l[lo:hi]] *)
Definition slice {A} (l : list A) (lo hi : Z) : list A :=
  let n := Z.of_nat (length l) in
  let a := slice_index n lo in
  let b := slice_index n hi in
  take (Z.to_nat (b - a)) (drop (Z.to_nat a) l).

(** [range(start, stop, step)]; a zero step is a [ValueError]. *)
Definition range (start stop step : Z) : result (list Z) :=
  if decide (step = 0)
  then Raise (ValueError "range() arg 3 must not be zero")
  else if decide (0 < step)
  then Ok ((λ k, start + k * step)
             <$> seqZ 0 ((stop - start + step - 1) `div` step))
  else Ok ((λ k, start + k * step)
             <$> seqZ 0 ((start - stop - step - 1) `div` (- step))).

(** A Python [str] as the sequence of its characters. *)
Definition chars (x : string) : list Ascii.ascii :=
  String.list_ascii_of_string x.

(** [enumerate(l)] *)
Definition enumerate {A} (l : list A) : list (nat * A) := imap pair l.

(** [sorted(l, key=key)]: a stable sort, here by insertion. *)
Fixpoint insert_by {T} (key : T → Z) (x : T) (l : list T) : list T :=
  match l with
  | [] => [x]
  | y :: l' =>
      if decide (key x ≤ key y) then x :: y :: l' else y :: insert_by key x l'
  end.

Definition sorted {T} (key : T → Z) (l : list T) : list T :=
  foldr (insert_by key) [] l.

(** A [deque] with [maxlen]: [appendleft] drops from the right when full,
    [rotate(1)] moves the last item to the front. *)
Definition appendleft (maxlen : nat) (x : Z) (d : list Z) : list Z :=
  take maxlen (x :: d).

Definition rotate1 (d : list Z) : list Z :=
  drop (length d - 1)%nat d ++ take (length d - 1)%nat d.

(** ** The collaborators from [fuzzysearch.common] *)

(** Modelled from the spec: the [Match] value of [fuzzysearch.common], an
    immutable record [{start, end, dist}] of a half-open index range into
    the sequence and a substitution count, built with no validation. *)
Record Match := mkMatch { start : Z; end_ : Z; dist : Z }.

Global Instance Match_eq_dec : EqDecision Match.
Proof. solve_decision. Defined.

Section fuzzysearch.
Context {A : Type} `{Countable A}.
Implicit Types subsequence sequence : list A.

(** Modelled from the spec: [search_exact] of [fuzzysearch.common]. It
    returns all the indices [i] where the fragment occurs verbatim in the
    sequence, [sequence[i:i+len(fragment)] == fragment], with
    [start_bound <= i] and [i + len(fragment) <= end_bound]; the bounds
    default to [0] and [len(sequence)]. The indices are listed in
    increasing order. The module never calls it with an empty fragment. *)
Definition search_exact subsequence sequence (start_index end_index : Z)
    : list Z :=
  filter
    (λ i, start_index ≤ i ∧ i + length subsequence ≤ end_index ∧
          slice sequence i (i + length subsequence) = subsequence)
    (seqZ 0 (length sequence + 1)).

(** ** Counting substitutions *)

(** [sum((a != b) for (a, b) in zip(xs, ys))] *)
Fixpoint mismatches (xs ys : list A) : Z :=
  match xs, ys with
  | x :: xs', y :: ys' => (if decide (x = y) then 0 else 1) + mismatches xs' ys'
  | _, _ => 0
  end.

(** ** The ring-counter matcher *)

(** The [defaultdict(list)] from each element of the subsequence to the
    positions where it occurs; reading a missing key gives [[]]. *)
Definition char_indexes_in_subsequence subsequence : gmap A (list nat) :=
  foldl (λ d '(index, char), <[char := d !!! char ++ [index]]> d)
        ∅ (enumerate subsequence).

(** [candidates[subseq_index] += 1] *)
Definition incr (candidates : list Z) (subseq_index : nat)
    : result (list Z) :=
  match candidates !! subseq_index with
  | Some c => Ok (<[subseq_index := c + 1]> candidates)
  | None => Raise IndexError
  end.

(** [for subseq_index in idxs: candidates[subseq_index] += 1] *)
Fixpoint incr_all (candidates : list Z) (idxs : list nat)
    : result (list Z) :=
  match idxs with
  | [] => Ok candidates
  | subseq_index :: idxs' =>
      c ←! incr candidates subseq_index; incr_all c idxs'
  end.

(** The first loop, over the first [_SUBSEQ_LEN - 1] items: no match can end
    there. *)
Fixpoint warm_up (_SUBSEQ_LEN : Z) (d : gmap A (list nat))
    (items : list (nat * A)) (candidates : list Z) : result (list Z) :=
  match items with
  | [] => Ok candidates
  | (index, char) :: items' =>
      c ←! incr_all candidates
             (filter (λ idx, (idx ≤ index)%nat) (d !!! char));
      warm_up _SUBSEQ_LEN d items' (appendleft (Z.to_nat _SUBSEQ_LEN) 0 c)
  end.

(** The second loop, over the remaining items; it yields the matches. *)
Fixpoint steady (_SUBSEQ_LEN max_substitutions : Z) (d : gmap A (list nat))
    (items : list (nat * A)) (candidates : list Z) : generated Match :=
  match items with
  | [] => ([], None)
  | (index, char) :: items' =>
      match incr_all candidates (d !!! char) with
      | Raise e => ([], Some e)
      | Ok c =>
          let c := rotate1 c in
          match c !! 0%nat with
          | None => ([], Some IndexError)
          | Some c0 =>
              let n_substitutions := _SUBSEQ_LEN - c0 in
              let c := <[0%nat := 0]> c in
              let rest := steady _SUBSEQ_LEN max_substitutions d items' c in
              if decide (n_substitutions ≤ max_substitutions)
              then (mkMatch (index - (_SUBSEQ_LEN - 1)) (index + 1)
                            n_substitutions :: rest.1, rest.2)
              else rest
          end
      end
  end.

Definition find_near_matches_substitutions_linear_programming
    subsequence sequence (max_substitutions : Z) : generated Match :=
  if decide (subsequence = []) then ([], Some EmptySubsequence)
  else
    let _SUBSEQ_LEN : Z := length subsequence in
    let _SUBSEQ_LEN_MINUS_ONE := _SUBSEQ_LEN - 1 in
    let d := char_indexes_in_subsequence subsequence in
    let sequence_enum_iter := enumerate sequence in
    match warm_up _SUBSEQ_LEN d
            (take (Z.to_nat _SUBSEQ_LEN_MINUS_ONE) sequence_enum_iter) [0] with
    | Raise e => ([], Some e)
    | Ok candidates =>
        steady _SUBSEQ_LEN max_substitutions d
          (drop (Z.to_nat _SUBSEQ_LEN_MINUS_ONE) sequence_enum_iter) candidates
    end.

(** ** The ngram matcher *)

(** The starts of the fragments: [range(0, len(subsequence) - ngram_len + 1,
    ngram_len)]. *)
Definition ngram_starts (subseq_len ngram_len : Z) : result (list Z) :=
  range 0 (subseq_len - ngram_len + 1) ngram_len.

(** The body of the inner loop for one hit [index] of the fragment that
    starts at [ngram_start]: [None] where the code says [continue], the
    match it yields otherwise. *)
Definition check_hit subsequence sequence (max_substitutions : Z)
    (ngram_start ngram_len : Z) (index : Z) : option Match :=
  let subseq_len : Z := length subsequence in
  let ngram_end := ngram_start + ngram_len in
  let _subseq_before := slice subsequence 0 ngram_start in
  let _subseq_after := slice subsequence ngram_end subseq_len in
  let n_substitutions := 0 in
  let _seq_before := slice sequence (index - ngram_start) index in
  n_substitutions ←
    (if decide (_subseq_before ≠ _seq_before) then
       let n_substitutions :=
         n_substitutions + mismatches _seq_before _subseq_before in
       if decide (n_substitutions > max_substitutions) then None
       else Some n_substitutions
     else Some n_substitutions);
  let _seq_after :=
    slice sequence (index + ngram_len) (index - ngram_start + subseq_len) in
  n_substitutions ←
    (if decide (_subseq_after ≠ _seq_after) then
       if decide (n_substitutions = max_substitutions) then None
       else
         let n_substitutions :=
           n_substitutions + mismatches _seq_after _subseq_after in
         if decide (n_substitutions > max_substitutions) then None
         else Some n_substitutions
     else Some n_substitutions);
  Some (mkMatch (index - ngram_start) (index - ngram_start + subseq_len)
                n_substitutions).

(** The matches yielded for one fragment. *)
Definition ngram_hits subsequence sequence (max_substitutions : Z)
    (ngram_len : Z) (ngram_start : Z) : list Match :=
  let subseq_len : Z := length subsequence in
  let seq_len : Z := length sequence in
  let ngram_end := ngram_start + ngram_len in
  omap (check_hit subsequence sequence max_substitutions ngram_start ngram_len)
       (search_exact (slice subsequence ngram_start ngram_end) sequence
          ngram_start (seq_len - (subseq_len - ngram_end))).

Definition _find_near_matches_substitutions_ngrams
    subsequence sequence (max_substitutions : Z) : generated Match :=
  let subseq_len : Z := length subsequence in
  if decide (max_substitutions + 1 = 0) then ([], Some ZeroDivisionError)
  else
    let ngram_len := subseq_len `div` (max_substitutions + 1) in
    if decide (ngram_len = 0) then ([], Some BudgetExceedsLength)
    else
      match ngram_starts subseq_len ngram_len with
      | Raise e => ([], Some e)
      | Ok starts =>
          (starts ≫= ngram_hits subsequence sequence max_substitutions
                        ngram_len,
           None)
      end.

(** One round of the loop that drops the matches whose start was seen. *)
Definition keep_first (st : gset Z * list Match) (m : Match)
    : gset Z * list Match :=
  if decide (start m ∉ st.1) then ({[start m]} ∪ st.1, st.2 ++ [m]) else st.

Definition find_near_matches_substitutions_ngrams
    subsequence sequence (max_substitutions : Z) : result (list Match) :=
  yielded ←! collect (_find_near_matches_substitutions_ngrams
                        subsequence sequence max_substitutions);
  let '(match_starts, matches) := foldl keep_first (∅, []) yielded in
  Ok (sorted start matches).

(** [for match in ...: return True] leaves at the first value yielded, and
    sees the generator's exception only when nothing was yielded before. *)
Definition has_near_match_substitutions_ngrams
    subsequence sequence (max_substitutions : Z) : result bool :=
  match _find_near_matches_substitutions_ngrams
          subsequence sequence max_substitutions with
  | (_ :: _, _) => Ok true
  | ([], Some e) => Raise e
  | ([], None) => Ok false
  end.

(** ** The dispatcher *)

Definition find_near_matches_substitutions
    subsequence sequence (max_substitutions : Z) : result (list Match) :=
  if decide (subsequence = []) then Raise EmptySubsequence
  else if decide (max_substitutions < 0) then Raise NegativeBudget
  else if decide (max_substitutions = 0) then
    Ok ((λ start_index : Z,
           mkMatch start_index (start_index + length subsequence) 0)
          <$> search_exact subsequence sequence 0 (length sequence))
  else if decide (Z.of_nat (length subsequence)
                    `div` (max_substitutions + 1) >= 3)
  then
    find_near_matches_substitutions_ngrams
      subsequence sequence max_substitutions
  else
    collect (find_near_matches_substitutions_linear_programming
               subsequence sequence max_substitutions).

(** ** The brute-force reference *)

(** The substitution count of the window of the sequence that starts at
    [i]. *)
Definition window_dist subsequence sequence (i : Z) : Z :=
  mismatches subsequence (slice sequence i (i + length subsequence)).

(** A valid window start: the window lies in the sequence and differs from
    the subsequence in at most [K] places. *)
Definition valid_window subsequence sequence (K : Z) (i : Z) : Prop :=
  0 ≤ i ≤ length sequence - length subsequence ∧
  window_dist subsequence sequence i ≤ K.

(** The match the reference reports at the window start [i], if any. *)
Definition window_match subsequence sequence (K : Z) (i : Z) : option Match :=
  let d := window_dist subsequence sequence i in
  if decide (d ≤ K) then Some (mkMatch i (i + length subsequence) d) else None.

(** All the windows, left to right, O(N*L). *)
Definition brute_force subsequence sequence (K : Z) : list Match :=
  omap (window_match subsequence sequence K)
       (seqZ 0 (length sequence - length subsequence + 1)).

(** What [spec.md] asks of every match returned for [(S, T, K)]. *)
Definition good_match subsequence sequence (K : Z) (m : Match) : Prop :=
  0 ≤ start m ≤ end_ m ∧ end_ m ≤ length sequence ∧
  end_ m - start m = length subsequence ∧
  dist m = mismatches subsequence (slice sequence (start m) (end_ m)) ∧
  dist m ≤ K.

(** [m] is the first of the matches yielded, [ys], with its start. *)
Definition first_with_start (ys : list Match) (m : Match) : Prop :=
  ∃ i : nat, ys !! i = Some m ∧
    ∀ (j : nat) m', (j < i)%nat → ys !! j = Some m' → start m' ≠ start m.

(** ** What the ring of counters holds *)

(** Whether position [j] of the subsequence agrees with position [i] of the
    sequence. *)
Definition agrees_at subsequence sequence (j i : nat) : Z :=
  match subsequence !! j, sequence !! i with
  | Some a, Some b => if decide (a = b) then 1 else 0
  | _, _ => 0
  end.

(** The number of the first [j] positions of the subsequence that agree with
    the sequence when the subsequence is laid at [s]. *)
Fixpoint agree subsequence sequence (s j : nat) : Z :=
  match j with
  | O => 0
  | S j' =>
      agree subsequence sequence s j'
      + agrees_at subsequence sequence j' (s + j')
  end.

(** The counters before the item at [i] is read: slot [j] counts for the
    alignment that starts at [i - j]. *)
Definition ring subsequence sequence (len i : nat) : list Z :=
  (λ j, agree subsequence sequence (i - j) j) <$> seq 0 len.

(** The counters once the item at [i] has been counted. *)
Definition ring_counted subsequence sequence (len i : nat) : list Z :=
  (λ j, agree subsequence sequence (i - j) (S j)) <$> seq 0 len.

End fuzzysearch.

(** * Verification *)

(** ** Slices and ranges *)

Section builtins.
Context {A : Type}.
Implicit Types l : list A.

Lemma slice_nonneg l (lo hi : Z) :
  0 ≤ lo → 0 ≤ hi →
  slice l lo hi = take (Z.to_nat hi - Z.to_nat lo) (drop (Z.to_nat lo) l).
Proof.
  intros Hlo Hhi. unfold slice, slice_index.
  rewrite !decide_False by lia.
  destruct (decide (lo ≤ length l)) as [Hl|Hl].
  - rewrite (Z.min_l lo) by done.
    destruct (decide (hi ≤ length l)) as [Hh|Hh].
    + rewrite (Z.min_l hi) by done. f_equal. lia.
    + rewrite (Z.min_r hi) by lia.
      rewrite !take_ge; [done| |]; rewrite length_drop; lia.
  - rewrite (Z.min_r lo) by lia.
    rewrite !drop_ge by lia. by rewrite !take_nil.
Qed.

Lemma length_slice l (lo hi : Z) :
  0 ≤ lo ≤ hi → hi ≤ length l → Z.of_nat (length (slice l lo hi)) = hi - lo.
Proof.
  intros ??. rewrite slice_nonneg by lia.
  rewrite length_take, length_drop. lia.
Qed.

Lemma slice_all l : slice l 0 (length l) = l.
Proof.
  rewrite slice_nonneg by lia. rewrite drop_0, take_ge; [done|lia].
Qed.

Lemma slice_empty l (lo hi : Z) : 0 ≤ hi ≤ lo → slice l lo hi = [].
Proof.
  intros ?. rewrite slice_nonneg by lia.
  replace (Z.to_nat hi - Z.to_nat lo)%nat with 0%nat by lia. done.
Qed.

(** A slice cut in two at an inner point. *)
Lemma slice_split l (lo mid hi : Z) :
  0 ≤ lo ≤ mid → mid ≤ hi →
  slice l lo hi = slice l lo mid ++ slice l mid hi.
Proof.
  intros ??. rewrite !slice_nonneg by lia.
  replace (Z.to_nat hi - Z.to_nat lo)%nat
    with ((Z.to_nat mid - Z.to_nat lo) + (Z.to_nat hi - Z.to_nat mid))%nat
    by lia.
  rewrite <-take_take_drop, drop_drop. do 3 f_equal. lia.
Qed.

Lemma take_drop_take l (n m p : nat) :
  (m + n ≤ p)%nat → take n (drop m (take p l)) = take n (drop m l).
Proof.
  intros ?. rewrite !take_drop_commute, take_take. do 2 f_equal. lia.
Qed.

(** A slice of a slice, as the ngram matcher takes them of a window. *)
Lemma slice_slice l (a b lo hi : Z) :
  0 ≤ a → 0 ≤ lo ≤ hi → hi ≤ b - a →
  slice (slice l a b) lo hi = slice l (a + lo) (a + hi).
Proof.
  intros ???. rewrite !slice_nonneg by lia.
  rewrite take_drop_take by lia. rewrite drop_drop. f_equal; [lia|].
  f_equal. lia.
Qed.

End builtins.

Section range_facts.

Lemma range_pos (start stop step : Z) :
  0 < step →
  range start stop step =
    Ok ((λ k, start + k * step)
          <$> seqZ 0 ((stop - start + step - 1) `div` step)).
Proof.
  intros ?. unfold range. rewrite decide_False by lia.
  by rewrite decide_True by lia.
Qed.

(** The number of values below [stop - start], [step] apart. *)
Lemma range_count (n step k : Z) :
  0 < step → 0 ≤ k → k < (n + step - 1) `div` step ↔ k * step < n.
Proof.
  intros ??. split; intros Hk.
  - destruct (decide (k * step < n)) as [|Hn]; [done|exfalso].
    assert ((n + step - 1) `div` step < k + 1); [|lia].
    apply Z.div_lt_upper_bound; lia.
  - assert (k + 1 ≤ (n + step - 1) `div` step); [|lia].
    apply Z.div_le_lower_bound; lia.
Qed.

Lemma elem_of_range_pos (start stop step : Z) l x :
  0 < step → range start stop step = Ok l →
  x ∈ l ↔ ∃ k, 0 ≤ k ∧ x = start + k * step ∧ x < stop.
Proof.
  intros ? Hr. rewrite range_pos in Hr by done. simplify_eq.
  rewrite list_elem_of_fmap. split.
  - intros (k & -> & Hk). apply elem_of_seqZ in Hk. exists k.
    split_and!; [lia|done|]. destruct Hk as [? Hk].
    rewrite Z.add_0_l in Hk. apply range_count in Hk; lia.
  - intros (k & ? & -> & ?). exists k. split; [done|].
    apply elem_of_seqZ. split; [done|]. rewrite Z.add_0_l.
    apply range_count; lia.
Qed.

(** A negative step from a start below the stop gives the empty range. *)
Lemma range_neg_empty (start stop step : Z) :
  step < 0 → start < stop → range start stop step = Ok [].
Proof.
  intros ??. unfold range. rewrite !decide_False by lia.
  rewrite seqZ_nil; [done|].
  assert ((start - stop - step - 1) `div` (- step) < 1); [|lia].
  apply Z.div_lt_upper_bound; lia.
Qed.

End range_facts.

(** ** [sorted] is a sort *)

Section sorted_facts.
Context {T : Type} (key : T → Z).
Implicit Types l : list T.

Lemma insert_by_Permutation x l : insert_by key x l ≡ₚ x :: l.
Proof.
  induction l as [|y l IH]; simpl; [done|].
  case_decide; [done|]. rewrite IH. apply Permutation_swap.
Qed.

Lemma sorted_Permutation l : sorted key l ≡ₚ l.
Proof.
  induction l as [|x l IH]; simpl; [done|].
  by rewrite insert_by_Permutation, IH.
Qed.

Lemma insert_by_StronglySorted x l :
  StronglySorted (λ a b, key a ≤ key b) l →
  StronglySorted (λ a b, key a ≤ key b) (insert_by key x l).
Proof.
  induction 1 as [|y l Hl IH Hy]; simpl.
  { repeat constructor. }
  case_decide.
  - constructor; [by constructor|]. constructor; [done|].
    eapply Forall_impl; [exact Hy|]. simpl. lia.
  - constructor; [done|]. rewrite insert_by_Permutation.
    constructor; [lia|done].
Qed.

Lemma sorted_StronglySorted l :
  StronglySorted (λ a b, key a ≤ key b) (sorted key l).
Proof.
  induction l; simpl; [constructor|by apply insert_by_StronglySorted].
Qed.

Lemma elem_of_sorted x l : x ∈ sorted key l ↔ x ∈ l.
Proof. by rewrite sorted_Permutation. Qed.

End sorted_facts.

(** ** Substitution counts *)

Section mismatches_facts.
Context {A : Type} `{Countable A}.
Implicit Types xs ys : list A.

Lemma mismatches_nonneg xs ys : 0 ≤ mismatches xs ys.
Proof.
  revert ys. induction xs as [|x xs IH]; intros [|y ys]; simpl; try lia.
  specialize (IH ys). case_decide; lia.
Qed.

Lemma mismatches_sym xs ys : mismatches xs ys = mismatches ys xs.
Proof.
  revert ys. induction xs as [|x xs IH]; intros [|y ys]; simpl; try done.
  rewrite (IH ys). repeat case_decide; congruence.
Qed.

Lemma mismatches_refl xs : mismatches xs xs = 0.
Proof. induction xs; simpl; [done|]. by rewrite decide_True. Qed.

Lemma mismatches_le_length xs ys : mismatches xs ys ≤ length xs.
Proof.
  revert ys. induction xs as [|x xs IH]; intros [|y ys]; simpl; try lia.
  specialize (IH ys). case_decide; lia.
Qed.

Lemma mismatches_app xs1 xs2 ys1 ys2 :
  length xs1 = length ys1 →
  mismatches (xs1 ++ xs2) (ys1 ++ ys2)
  = mismatches xs1 ys1 + mismatches xs2 ys2.
Proof.
  revert ys1. induction xs1 as [|x xs1 IH]; intros [|y ys1] ?;
    simplify_eq/=; [done|].
  rewrite IH by done. lia.
Qed.

(** Two sequences of one length that differ differ somewhere. *)
Lemma mismatches_pos xs ys :
  length xs = length ys → xs ≠ ys → 1 ≤ mismatches xs ys.
Proof.
  revert ys. induction xs as [|x xs IH]; intros [|y ys] ? Hne;
    simplify_eq/=; try done.
  pose proof (mismatches_nonneg xs ys). case_decide; [|lia].
  subst. rewrite Z.add_0_l. apply IH; congruence.
Qed.

Lemma mismatches_0_iff xs ys :
  length xs = length ys → mismatches xs ys = 0 ↔ xs = ys.
Proof.
  intros ?. split; [|intros ->; apply mismatches_refl].
  intros Hz. destruct (decide (xs = ys)) as [|Hne]; [done|].
  apply mismatches_pos in Hne; [lia|done].
Qed.

(** The pigeonhole argument of the ngram matcher: of [n] disjoint fragments
    of length [g], fewer than [n] substitutions leave one untouched. *)
Lemma mismatches_pigeonhole (g n : nat) xs ys :
  length xs = length ys → (n * g ≤ length xs)%nat →
  mismatches xs ys < n →
  ∃ k : nat, (k < n)%nat ∧
    take g (drop (k * g) xs) = take g (drop (k * g) ys).
Proof.
  revert xs ys. induction n as [|n IH]; intros xs ys Hlen Hn Hm.
  { pose proof (mismatches_nonneg xs ys). lia. }
  destruct (decide (take g xs = take g ys)) as [Heq|Hne].
  { exists 0%nat. split; [lia|]. by rewrite !drop_0. }
  apply mismatches_pos in Hne; [|rewrite !length_take; lia].
  rewrite <-(take_drop g xs), <-(take_drop g ys) in Hm.
  rewrite mismatches_app in Hm by (rewrite !length_take; lia).
  destruct (IH (drop g xs) (drop g ys)) as (k & ? & Hk).
  - rewrite !length_drop. lia.
  - rewrite length_drop. lia.
  - lia.
  - exists (S k). split; [lia|]. rewrite !drop_drop in Hk.
    by replace (S k * g)%nat with (g + k * g)%nat by lia.
Qed.

End mismatches_facts.

(** ** The ngram matcher finds the windows of the reference *)

Section ngrams_facts.
Context {A : Type} `{Countable A}.
Implicit Types subsequence sequence : list A.

Lemma slice_take_drop (l : list A) (lo len : Z) :
  0 ≤ lo → 0 ≤ len →
  slice l lo (lo + len) = take (Z.to_nat len) (drop (Z.to_nat lo) l).
Proof. intros ??. rewrite slice_nonneg by lia. f_equal. lia. Qed.

Lemma elem_of_search_exact subsequence sequence (lo hi i : Z) :
  i ∈ search_exact subsequence sequence lo hi ↔
  0 ≤ i ≤ length sequence ∧ lo ≤ i ∧ i + length subsequence ≤ hi ∧
  slice sequence i (i + length subsequence) = subsequence.
Proof.
  unfold search_exact. rewrite list_elem_of_filter, elem_of_seqZ.
  split; [intros [(?&?&?) ?]|intros (?&?&?&?)]; split_and!; (done || lia).
Qed.

(** The window of the sequence at [i]. *)
Lemma length_window subsequence sequence (i : Z) :
  0 ≤ i ≤ length sequence - length subsequence →
  length (slice sequence i (i + length subsequence)) = length subsequence.
Proof. intros ?. apply Nat2Z.inj. rewrite length_slice; lia. Qed.

(** On a hit that leaves room on both sides, the inner loop decides as the
    reference does at the window start [index - ngram_start]. *)
Lemma check_hit_window subsequence sequence (K f g h : Z) :
  0 ≤ K → 0 ≤ f → 0 < g → f + g ≤ length subsequence → f ≤ h →
  h - f + length subsequence ≤ length sequence →
  slice sequence h (h + g) = slice subsequence f (f + g) →
  check_hit subsequence sequence K f g h
  = window_match subsequence sequence K (h - f).
Proof.
  intros HK Hf Hg Hfg Hfh Hroom Hfrag.
  unfold check_hit, window_match.
  set (L := Z.of_nat (length subsequence)) in *.
  set (sb := slice subsequence 0 f).
  set (tb := slice sequence (h - f) h).
  set (sa := slice subsequence (f + g) L).
  set (ta := slice sequence (h + g) (h - f + L)).
  assert (window_dist subsequence sequence (h - f)
          = mismatches tb sb + mismatches ta sa) as ->.
  { unfold window_dist. fold L.
    rewrite <-(slice_all subsequence) at 1. fold L.
    rewrite (slice_split subsequence 0 f L) by lia.
    rewrite (slice_split subsequence f (f + g) L) by lia.
    rewrite (slice_split sequence (h - f) h (h - f + L)) by lia.
    rewrite (slice_split sequence h (h + g) (h - f + L)) by lia.
    rewrite Hfrag. fold sb tb sa ta.
    rewrite !mismatches_app, mismatches_refl.
    - rewrite (mismatches_sym sb), (mismatches_sym sa). lia.
    - done.
    - apply Nat2Z.inj. unfold sb, tb. rewrite !length_slice; lia. }
  assert (length tb = length sb).
  { apply Nat2Z.inj. unfold sb, tb. rewrite !length_slice; lia. }
  assert (length ta = length sa).
  { apply Nat2Z.inj. unfold sa, ta. rewrite !length_slice; lia. }
  assert (sb ≠ tb → 1 ≤ mismatches tb sb) as Hb1.
  { intros ?. by apply mismatches_pos. }
  assert (sb = tb → mismatches tb sb = 0) as Hb0.
  { intros ->. apply mismatches_refl. }
  assert (sa ≠ ta → 1 ≤ mismatches ta sa) as Ha1.
  { intros ?. by apply mismatches_pos. }
  assert (sa = ta → mismatches ta sa = 0) as Ha0.
  { intros ->. apply mismatches_refl. }
  repeat (case_decide; simpl);
    repeat match goal with
           | Hi : ?P → _, Hp : ?P |- _ => specialize (Hi Hp)
           end;
    first [lia | do 2 f_equal; lia].
Qed.

Lemma elem_of_ngram_hits subsequence sequence (K g f : Z) m :
  m ∈ ngram_hits subsequence sequence K g f ↔
  ∃ h, h ∈ search_exact (slice subsequence f (f + g)) sequence f
             (length sequence - (length subsequence - (f + g))) ∧
       check_hit subsequence sequence K f g h = Some m.
Proof. unfold ngram_hits. by rewrite list_elem_of_omap. Qed.

Lemma elem_of_brute_force subsequence sequence (K : Z) m :
  m ∈ brute_force subsequence sequence K ↔
  ∃ i, 0 ≤ i ≤ length sequence - length subsequence ∧
       window_match subsequence sequence K i = Some m.
Proof.
  unfold brute_force. rewrite list_elem_of_omap.
  split; intros (i & Hi & ?); exists i; split; try done;
    [apply elem_of_seqZ in Hi|apply elem_of_seqZ]; lia.
Qed.

(** The fragment length is positive and [K + 1] fragments fit. *)
Lemma ngram_len_bounds (L K : Z) :
  0 ≤ K < L → 0 < L `div` (K + 1) ∧ (K + 1) * (L `div` (K + 1)) ≤ L.
Proof.
  intros ?. split.
  - apply Z.div_str_pos. lia.
  - apply Z.mul_div_le. lia.
Qed.

Lemma ngram_starts_ok (L g : Z) :
  0 < g ≤ L →
  ngram_starts L g = Ok ((λ k, 0 + k * g) <$> seqZ 0 (L `div` g)).
Proof.
  intros ?. unfold ngram_starts. rewrite range_pos by lia.
  by replace (L - g + 1 - 0 + g - 1) with L by lia.
Qed.

Lemma elem_of_ngram_starts (L g : Z) l f :
  0 < g → ngram_starts L g = Ok l →
  f ∈ l ↔ ∃ k, 0 ≤ k ∧ f = k * g ∧ f + g ≤ L.
Proof.
  intros ? Hl. unfold ngram_starts in Hl.
  rewrite (elem_of_range_pos _ _ _ _ f ltac:(done) Hl).
  split; intros (k & ? & ? & ?); exists k; split_and!; lia.
Qed.

Theorem ngrams_raw_brute_force subsequence sequence (K : Z) :
  0 ≤ K < length subsequence →
  ∃ ys,
    _find_near_matches_substitutions_ngrams subsequence sequence K
    = (ys, None) ∧
    ∀ m, m ∈ ys ↔ m ∈ brute_force subsequence sequence K.
Proof.
  intros HK. unfold _find_near_matches_substitutions_ngrams.
  set (L := Z.of_nat (length subsequence)) in *.
  set (N := Z.of_nat (length sequence)).
  destruct (ngram_len_bounds L K HK) as [Hg HgL].
  set (g := L `div` (K + 1)) in *.
  rewrite !decide_False by lia.
  assert (0 < g ≤ L) as HgL' by nia.
  destruct (ngram_starts L g) as [starts|e] eqn:Hstarts;
    [|by rewrite ngram_starts_ok in Hstarts].
  eexists; split; [done|]. intros m.
  rewrite list_elem_of_bind, elem_of_brute_force. fold L N. split.
  - intros (f & Hm & Hf).
    apply (elem_of_ngram_starts L g) in Hf as (k & ? & -> & ?); [|done..].
    apply elem_of_ngram_hits in Hm as (h & Hh & Hm).
    apply elem_of_search_exact in Hh as (? & ? & Hroom & Hfrag).
    rewrite length_slice in Hroom, Hfrag by (fold L; lia).
    fold L N in Hroom.
    replace (k * g + g - k * g) with g in Hroom, Hfrag by lia.
    rewrite check_hit_window in Hm; try done; try (fold L); try lia.
    exists (h - k * g). split; [lia|done].
  - intros (i & Hi & Hm).
    assert (window_dist subsequence sequence i ≤ K) as Hd.
    { unfold window_match in Hm. by case_decide. }
    destruct (mismatches_pigeonhole (Z.to_nat g) (Z.to_nat (K + 1))
                subsequence (slice sequence i (i + L)))
      as (k & Hk & Hfrag).
    { symmetry. by apply length_window. }
    { fold L in HgL. unfold L in *. nia. }
    { unfold window_dist in Hd. fold L in Hd. lia. }
    assert (Z.of_nat k * g + g ≤ L) by nia.
    exists (k * g). split.
    + apply elem_of_ngram_hits. exists (i + k * g).
      assert (slice sequence (i + k * g) (i + k * g + g)
              = slice subsequence (k * g) (k * g + g)) as Hfrag'.
      { replace (i + k * g + g) with (i + (k * g + g)) by lia.
        rewrite <-(slice_slice sequence i (i + L)) by lia.
        rewrite !slice_take_drop by lia.
        rewrite (slice_take_drop sequence) in Hfrag by lia.
        by rewrite Z2Nat.inj_mul, Nat2Z.id by lia. }
      split.
      * apply elem_of_search_exact.
        rewrite length_slice by (fold L; lia). fold L N.
        replace (k * g + g - k * g) with g by lia.
        split_and!; try lia. done.
      * rewrite check_hit_window; try done; try (fold L N); try lia.
        by replace (i + k * g - k * g) with i by lia.
    + apply (elem_of_ngram_starts L g); [lia|done|].
      exists k. lia.
Qed.

End ngrams_facts.

(** ** The ring-counter matcher computes the reference *)

Section linear_facts.
Context {A : Type} `{Countable A}.
Implicit Types subsequence sequence : list A.

Lemma length_enumerate (l : list A) : length (enumerate l) = length l.
Proof. apply length_imap. Qed.

Lemma drop_enumerate (l : list A) (i : nat) x :
  l !! i = Some x →
  drop i (enumerate l) = (i, x) :: drop (S i) (enumerate l).
Proof.
  intros Hi. apply drop_S. unfold enumerate.
  by rewrite list_lookup_imap, Hi.
Qed.

(** The dictionary lists, for each element, exactly the positions where it
    stands in the subsequence, each once. *)
Lemma char_indexes_spec subsequence c :
  NoDup (char_indexes_in_subsequence subsequence !!! c) ∧
  ∀ j, j ∈ char_indexes_in_subsequence subsequence !!! c
       ↔ subsequence !! j = Some c.
Proof.
  unfold char_indexes_in_subsequence, enumerate. revert c.
  induction subsequence as [|x l IH] using rev_ind; intros c.
  { simpl. rewrite lookup_total_empty. split; [constructor|].
    intros j. rewrite lookup_nil. set_solver. }
  rewrite imap_app, foldl_app. simpl. rewrite Nat.add_0_r.
  set (d := foldl _ ∅ (imap pair l)) in *.
  destruct (decide (x = c)) as [->|Hne].
  - rewrite lookup_total_insert_eq. destruct (IH c) as [Hnd Hin]. split.
    + apply NoDup_app. split_and!; [done| |apply NoDup_singleton].
      intros j Hj%Hin ->%list_elem_of_singleton.
      apply lookup_lt_Some in Hj. lia.
    + intros j. rewrite elem_of_app, Hin, list_elem_of_singleton.
      destruct (decide (j < length l)%nat).
      * rewrite lookup_app_l by done. split; [intros [?|?]|]; auto with lia.
      * rewrite lookup_app_r by lia. rewrite lookup_ge_None_2 by lia.
        destruct (decide (j = length l)) as [->|].
        -- rewrite Nat.sub_diag. simpl. tauto.
        -- rewrite lookup_ge_None_2 by (simpl; lia).
           split; [intros [?|?]|]; done.
  - rewrite lookup_total_insert_ne by done. destruct (IH c) as [Hnd Hin].
    split; [done|]. intros j. rewrite Hin.
    destruct (decide (j < length l)%nat).
    * by rewrite lookup_app_l.
    * rewrite lookup_app_r by lia. rewrite lookup_ge_None_2 by lia.
      destruct (decide (j = length l)) as [->|].
      -- rewrite Nat.sub_diag. simpl. split; [done|congruence].
      -- rewrite lookup_ge_None_2 by (simpl; lia). done.
Qed.

(** Counting a set of slots, all in range, raises nothing and adds one to
    each of them. *)
Lemma incr_all_spec (c : list Z) (js : list nat) :
  NoDup js → (∀ j, j ∈ js → (j < length c)%nat) →
  ∃ c', incr_all c js = Ok c' ∧ length c' = length c ∧
    ∀ j v, c !! j = Some v →
           c' !! j = Some (v + if decide (j ∈ js) then 1 else 0).
Proof.
  revert c. induction js as [|j0 js IH]; intros c Hnd Hlt.
  { exists c. split_and!; [done..|]. intros j v ->.
    rewrite decide_False by set_solver. f_equal. lia. }
  apply NoDup_cons in Hnd as [Hj0 Hnd].
  destruct (lookup_lt_is_Some_2 c j0) as [v0 Hv0]; [apply Hlt; set_solver|].
  simpl. unfold incr. rewrite Hv0. simpl.
  destruct (IH (<[j0:=v0 + 1]> c)) as (c' & -> & Hlen & Hc'); [done| |].
  { intros j ?. rewrite length_insert. apply Hlt. set_solver. }
  exists c'. rewrite length_insert in Hlen. split_and!; [done..|].
  intros j v Hv. destruct (decide (j = j0)) as [->|Hne].
  - rewrite Hv0 in Hv. injection Hv as <-. rewrite (Hc' j0 (v0 + 1)).
    + rewrite decide_False by done. rewrite decide_True by set_solver.
      f_equal. lia.
    + apply list_lookup_insert_eq. by eapply lookup_lt_Some.
  - rewrite (Hc' j v) by by rewrite list_lookup_insert_ne.
    do 2 f_equal. apply decide_ext. rewrite elem_of_cons. tauto.
Qed.

Lemma length_ring subsequence sequence len i :
  length (ring subsequence sequence len i) = len.
Proof. unfold ring. by rewrite length_fmap, length_seq. Qed.

Lemma lookup_ring subsequence sequence len i j :
  (j < len)%nat →
  ring subsequence sequence len i !! j
  = Some (agree subsequence sequence (i - j) j).
Proof.
  intros ?. unfold ring. rewrite list_lookup_fmap, lookup_seq_lt by done.
  done.
Qed.

(** One more slot at the front, for the alignment that starts at the next
    item. *)
Lemma ring_next subsequence sequence len i :
  0 :: ring_counted subsequence sequence len i
  = ring subsequence sequence (S len) (S i).
Proof.
  unfold ring, ring_counted. simpl. f_equal.
  rewrite <-fmap_S_seq, <-list_fmap_compose. done.
Qed.

(** Counting the item at [i] in the slots [js] where the subsequence has
    it. *)
Lemma incr_all_ring subsequence sequence len i ch js :
  (len ≤ S i)%nat → sequence !! i = Some ch → NoDup js →
  (∀ j, j ∈ js ↔ (j < len)%nat ∧ subsequence !! j = Some ch) →
  incr_all (ring subsequence sequence len i) js
  = Ok (ring_counted subsequence sequence len i).
Proof.
  intros Hlen Hch Hnd Hjs.
  destruct (incr_all_spec (ring subsequence sequence len i) js)
    as (c' & -> & Hlen' & Hc'); [done| |].
  { intros j [??]%Hjs. by rewrite length_ring. }
  f_equal. rewrite length_ring in Hlen'. apply list_eq. intros j.
  destruct (decide (j < len)%nat) as [Hj|Hj].
  - rewrite (Hc' j _ (lookup_ring _ _ _ _ _ Hj)).
    unfold ring_counted. rewrite list_lookup_fmap, lookup_seq_lt by done.
    simpl. do 2 f_equal. unfold agrees_at.
    replace (i - j + j)%nat with i by lia. rewrite Hch.
    destruct (subsequence !! j) as [a|] eqn:Ha.
    + destruct (decide (a = ch)) as [->|Hne].
      * rewrite decide_True; [done|]. by apply Hjs.
      * rewrite decide_False; [done|]. intros [_ ?]%Hjs. congruence.
    + rewrite decide_False; [done|]. intros [_ ?]%Hjs. congruence.
  - rewrite !lookup_ge_None_2; [done| |lia].
    unfold ring_counted. rewrite length_fmap, length_seq. lia.
Qed.

(** The count of agreements against the count of substitutions. *)
Lemma agree_mismatches subsequence sequence (s j : nat) :
  (j ≤ length subsequence)%nat → (s + j ≤ length sequence)%nat →
  agree subsequence sequence s j
  = j - mismatches (take j subsequence) (take j (drop s sequence)).
Proof.
  induction j as [|j IH]; intros ??; simpl.
  { done. }
  rewrite IH by lia.
  destruct (lookup_lt_is_Some_2 subsequence j) as [a Ha]; [lia|].
  destruct (lookup_lt_is_Some_2 sequence (s + j)) as [b Hb]; [lia|].
  rewrite (take_S_r subsequence j a) by done.
  rewrite (take_S_r (drop s sequence) j b) by by rewrite lookup_drop.
  rewrite mismatches_app by (rewrite !length_take, length_drop; lia).
  unfold agrees_at. rewrite Ha, Hb. simpl. case_decide; lia.
Qed.

Lemma agree_window_dist subsequence sequence (s : nat) :
  (s + length subsequence ≤ length sequence)%nat →
  length subsequence - agree subsequence sequence s (length subsequence)
  = window_dist subsequence sequence s.
Proof.
  intros ?. rewrite agree_mismatches by lia. unfold window_dist.
  rewrite slice_take_drop by lia. rewrite !Nat2Z.id.
  rewrite firstn_all. lia.
Qed.

(** The first loop raises nothing and leaves the ring as the second loop
    expects it. *)
Lemma warm_up_spec subsequence sequence (k i : nat) :
  (i + k < length subsequence)%nat → (i + k ≤ length sequence)%nat →
  warm_up (length subsequence) (char_indexes_in_subsequence subsequence)
    (take k (drop i (enumerate sequence)))
    (ring subsequence sequence (S i) i)
  = Ok (ring subsequence sequence (S (i + k)) (i + k)).
Proof.
  revert i. induction k as [|k IH]; intros i ??.
  { rewrite take_0, Nat.add_0_r. done. }
  destruct (lookup_lt_is_Some_2 sequence i) as [ch Hch]; [lia|].
  rewrite (drop_enumerate _ _ _ Hch). simpl.
  destruct (char_indexes_spec subsequence ch) as [Hnd Hin].
  rewrite (incr_all_ring _ _ _ _ ch); [|lia|done|by apply NoDup_filter|].
  - simpl. unfold appendleft. rewrite (take_ge (_ :: _)).
    + rewrite ring_next, IH by lia. do 2 f_equal; lia.
    + simpl. unfold ring_counted. rewrite length_fmap, length_seq. lia.
  - intros j. rewrite list_elem_of_filter, Hin. split; intros [??]; split;
      (done || lia).
Qed.

Lemma rotate1_ring_counted subsequence sequence (len i : nat) :
  rotate1 (ring_counted subsequence sequence (S len) i)
  = agree subsequence sequence (i - len) (S len)
    :: ring_counted subsequence sequence len i.
Proof.
  unfold rotate1, ring_counted.
  rewrite length_fmap, length_seq. rewrite seq_S, fmap_app. simpl.
  rewrite Nat.sub_0_r.
  rewrite drop_app_length', take_app_length';
    by rewrite ?length_fmap, ?length_seq.
Qed.

(** The second loop reports the reference's match at each window, from the
    one that ends at the item at [i] on. *)
Lemma steady_spec subsequence sequence (K : Z) (n i : nat) :
  (0 < length subsequence ≤ S i)%nat → (i + n = length sequence)%nat →
  steady (length subsequence) K (char_indexes_in_subsequence subsequence)
    (drop i (enumerate sequence))
    (ring subsequence sequence (length subsequence) i)
  = (omap (window_match subsequence sequence K)
       (seqZ (i - (length subsequence - 1)) n), None).
Proof.
  revert i. induction n as [|n IH]; intros i HL HN.
  { rewrite drop_ge by (rewrite length_enumerate; lia). done. }
  destruct (lookup_lt_is_Some_2 sequence i) as [ch Hch]; [lia|].
  rewrite (drop_enumerate _ _ _ Hch). simpl steady.
  destruct (char_indexes_spec subsequence ch) as [Hnd Hin].
  rewrite (incr_all_ring _ _ _ _ ch); [|lia|done|done|].
  2:{ intros j. rewrite Hin. split; [|by intros [??]].
      intros Hj. split; [|done]. by apply lookup_lt_Some in Hj. }
  assert (length subsequence = S (length subsequence - 1)) as HS by lia.
  pose proof (rotate1_ring_counted subsequence sequence
                (length subsequence - 1) i) as Hrot.
  rewrite <-HS in Hrot. rewrite !Hrot. clear Hrot.
  cbn [lookup list_lookup insert list_insert].
  rewrite ring_next, <-HS.
  rewrite (IH (S i)) by lia. cbn [fst snd].
  rewrite (seqZ_cons _ (S n)) by lia. simpl omap.
  replace (Z.succ (i - (length subsequence - 1)))
    with (S i - (length subsequence - 1)) by lia.
  replace (Z.pred (S n)) with (Z.of_nat n) by lia.
  replace (Z.of_nat i - (Z.of_nat (length subsequence) - 1))
    with (Z.of_nat (i - (length subsequence - 1))) by lia.
  rewrite !agree_window_dist by lia.
  unfold window_match. case_decide; [|done]. do 3 f_equal. lia.
Qed.

(** The ring-counter matcher yields the reference's matches, in the
    reference's order, and raises nothing. *)
Theorem linear_programming_brute_force subsequence sequence (K : Z) :
  subsequence ≠ [] →
  find_near_matches_substitutions_linear_programming subsequence sequence K
  = (brute_force subsequence sequence K, None).
Proof.
  intros Hne. unfold find_near_matches_substitutions_linear_programming.
  rewrite decide_False by done.
  assert (0 < length subsequence)%nat
    by (destruct subsequence; simpl; [done|lia]).
  replace (Z.to_nat (length subsequence - 1))
    with (length subsequence - 1)%nat by lia.
  unfold brute_force. change [0] with (ring subsequence sequence 1 0).
  destruct (decide (length subsequence - 1 ≤ length sequence)%nat).
  - pose proof (warm_up_spec subsequence sequence
                  (length subsequence - 1) 0) as Hw.
    rewrite drop_0 in Hw. rewrite Hw by lia. simpl.
    replace (S (length subsequence - 1)) with (length subsequence) by lia.
    rewrite (steady_spec _ _ _
               (length sequence - (length subsequence - 1))) by lia.
    do 2 f_equal. f_equal; lia.
  - pose proof (warm_up_spec subsequence sequence (length sequence) 0) as Hw.
    rewrite drop_0 in Hw.
    rewrite take_ge by (rewrite length_enumerate; lia).
    rewrite <-(take_ge (enumerate sequence) (length sequence))
      by (rewrite length_enumerate; lia).
    rewrite Hw by lia.
    rewrite take_ge, drop_ge by (rewrite length_enumerate; lia).
    simpl. by rewrite seqZ_nil by lia.
Qed.

End linear_facts.

(** ** Dropping the repeated starts *)

Section keep_first_facts.
Implicit Types ys acc : list Match.

Lemma first_with_start_elem_of ys m : first_with_start ys m → m ∈ ys.
Proof. intros (i & Hi & _). by eapply list_elem_of_lookup_2. Qed.

Lemma first_with_start_app_l ys x m :
  first_with_start ys m → first_with_start (ys ++ [x]) m.
Proof.
  intros (i & Hi & Hfirst). exists i. split.
  - by apply lookup_app_l_Some.
  - intros j m' Hj Hm'. apply (Hfirst j); [done|].
    apply lookup_lt_Some in Hi.
    by rewrite lookup_app_l in Hm' by lia.
Qed.

Lemma first_with_start_snoc ys x :
  start x ∉ start <$> ys → first_with_start (ys ++ [x]) x.
Proof.
  intros Hx. exists (length ys). split.
  - by rewrite lookup_app_r, Nat.sub_diag.
  - intros j m' Hj Hm' Heq. rewrite lookup_app_l in Hm' by done.
    apply Hx. rewrite <-Heq. apply list_elem_of_fmap_2.
    by eapply list_elem_of_lookup_2.
Qed.

Lemma first_with_start_app_inv ys x m :
  first_with_start (ys ++ [x]) m →
  first_with_start ys m ∨ (m = x ∧ start x ∉ start <$> ys).
Proof.
  intros (i & Hi & Hfirst).
  destruct (decide (i < length ys)%nat) as [Hlt|Hge].
  - left. exists i. rewrite lookup_app_l in Hi by done. split; [done|].
    intros j m' Hj Hm'. apply (Hfirst j); [done|].
    by rewrite lookup_app_l by lia.
  - right. rewrite lookup_app_r in Hi by lia.
    apply list_lookup_singleton_Some in Hi as [Hi ->].
    split; [done|]. intros (m' & Heq & Hm')%list_elem_of_fmap.
    apply list_elem_of_lookup in Hm' as [j Hj].
    apply (Hfirst j m'); [|by apply lookup_app_l_Some|done].
    apply lookup_lt_Some in Hj. lia.
Qed.

(** What the loop over the matches yielded has collected. *)
Lemma foldl_keep_first ys :
  ∃ seen acc, foldl keep_first (∅, []) ys = (seen, acc) ∧
    (∀ z, z ∈ seen ↔ z ∈ start <$> ys) ∧
    NoDup (start <$> acc) ∧
    (∀ m, m ∈ acc ↔ first_with_start ys m).
Proof.
  induction ys as [|x ys IH] using rev_ind.
  { exists ∅, []. split_and!; [done| |constructor|].
    - intros z. simpl. set_solver.
    - intros m. split; [by intros ?%elem_of_nil|].
      intros ?%first_with_start_elem_of. by apply elem_of_nil in H. }
  destruct IH as (seen & acc & Hfold & Hseen & Hnd & Hacc).
  rewrite foldl_app, Hfold. simpl. unfold keep_first. simpl.
  destruct (decide (start x ∉ seen)) as [Hx|Hx].
  - eexists _, _. split; [done|]. split_and!.
    + intros z. rewrite fmap_app, elem_of_app, elem_of_union, Hseen.
      simpl. rewrite elem_of_singleton, list_elem_of_singleton. tauto.
    + rewrite fmap_app. apply NoDup_app. split_and!; [done| |].
      * intros z (m & Hz & Hm)%list_elem_of_fmap Hz'%list_elem_of_singleton.
        apply Hx, Hseen. rewrite <-Hz', Hz. apply list_elem_of_fmap_2.
        by apply first_with_start_elem_of, Hacc.
      * apply NoDup_singleton.
    + intros m. rewrite elem_of_app, list_elem_of_singleton, Hacc. split.
      * intros [?| ->]; [by apply first_with_start_app_l|].
        apply first_with_start_snoc. by rewrite <-Hseen.
      * intros [?|[-> _]]%first_with_start_app_inv; auto.
  - apply dec_stable in Hx. exists seen, acc. split; [done|]. split_and!.
    + intros z. rewrite fmap_app, elem_of_app, Hseen. simpl.
      rewrite list_elem_of_singleton. split; [auto|].
      intros [?| ->]; [done|]. by apply Hseen.
    + done.
    + intros m. rewrite Hacc. split; [apply first_with_start_app_l|].
      intros [?|[-> Hn]]%first_with_start_app_inv; [done|].
      by apply Hseen in Hx.
Qed.

(** Any start that was yielded is kept, with the first match yielded
    there. *)
Lemma first_with_start_exists ys m :
  m ∈ ys → ∃ m', first_with_start ys m' ∧ start m' = start m.
Proof.
  revert m. induction ys as [|x ys IH] using rev_ind; intros m Hm.
  { by apply elem_of_nil in Hm. }
  assert (∀ m0, m0 ∈ ys →
            ∃ m', first_with_start (ys ++ [x]) m' ∧ start m' = start m0)
    as Hys.
  { intros m0 (m' & ? & ?)%IH. exists m'.
    split; [by apply first_with_start_app_l|done]. }
  apply elem_of_app in Hm as [Hm|Hm%list_elem_of_singleton]; [by apply Hys|].
  subst m. destruct (decide (start x ∈ start <$> ys)) as [Hin|Hnin].
  - apply list_elem_of_fmap in Hin as (m0 & -> & Hm0). by apply Hys.
  - exists x. split; [by apply first_with_start_snoc|done].
Qed.

Lemma NoDup_start_inj (l : list Match) m1 m2 :
  NoDup (start <$> l) → m1 ∈ l → m2 ∈ l → start m1 = start m2 → m1 = m2.
Proof.
  intros Hnd [i Hi]%list_elem_of_lookup [j Hj]%list_elem_of_lookup Heq.
  assert (i = j) as ->; [|congruence].
  apply (NoDup_lookup _ i j (start m1) Hnd).
  - by rewrite list_lookup_fmap, Hi.
  - by rewrite list_lookup_fmap, Hj, Heq.
Qed.

(** Two lists with distinct starts, in the order of their starts, that hold
    the same matches are one list. *)
Lemma sorted_by_start_unique (l1 l2 : list Match) :
  NoDup (start <$> l1) → NoDup (start <$> l2) →
  StronglySorted (λ a b, start a ≤ start b) l1 →
  StronglySorted (λ a b, start a ≤ start b) l2 →
  (∀ m, m ∈ l1 ↔ m ∈ l2) → l1 = l2.
Proof.
  intros Hnd1 Hnd2 Hs1 Hs2 Heq.
  apply (StronglySorted_unique_strong (λ a b, start a ≤ start b));
    [|done..|].
  - intros x1 x2 Hx1 Hx2%Heq ??.
    apply (NoDup_start_inj l1); [done..|lia].
  - apply NoDup_Permutation; [by eapply NoDup_fmap_1..|done].
Qed.

End keep_first_facts.

(** ** The reference *)

Section brute_force_facts.
Context {A : Type} `{Countable A}.
Implicit Types subsequence sequence : list A.

Lemma window_dist_nonneg subsequence sequence i :
  0 ≤ window_dist subsequence sequence i.
Proof. apply mismatches_nonneg. Qed.

Lemma window_dist_le_length subsequence sequence i :
  window_dist subsequence sequence i ≤ length subsequence.
Proof. apply mismatches_le_length. Qed.

Lemma window_match_Some subsequence sequence K i m :
  window_match subsequence sequence K i = Some m ↔
  m = mkMatch i (i + length subsequence)
        (window_dist subsequence sequence i) ∧
  window_dist subsequence sequence i ≤ K.
Proof.
  unfold window_match. case_decide; split.
  - by intros [= <-].
  - by intros [-> _].
  - done.
  - by intros [_ ?].
Qed.

(** A match of the reference is the one of the window at its start. *)
Lemma brute_force_window subsequence sequence K m :
  m ∈ brute_force subsequence sequence K ↔
  0 ≤ start m ≤ length sequence - length subsequence ∧
  window_match subsequence sequence K (start m) = Some m.
Proof.
  rewrite elem_of_brute_force. split.
  - intros (i & ? & Hm). pose proof Hm as [-> _]%window_match_Some.
    by simpl in *.
  - intros [??]. by exists (start m).
Qed.

Lemma brute_force_start_inj subsequence sequence K m1 m2 :
  m1 ∈ brute_force subsequence sequence K →
  m2 ∈ brute_force subsequence sequence K →
  start m1 = start m2 → m1 = m2.
Proof.
  intros [_ H1]%brute_force_window [_ H2]%brute_force_window Heq.
  rewrite Heq in H1. congruence.
Qed.

(** The starts of the reference's matches are the valid window starts. *)
Lemma elem_of_brute_force_starts subsequence sequence K i :
  i ∈ start <$> brute_force subsequence sequence K
  ↔ valid_window subsequence sequence K i.
Proof.
  rewrite list_elem_of_fmap. unfold valid_window. split.
  - intros (m & -> & [? [_ ?]%window_match_Some]%brute_force_window). done.
  - intros [? Hd]. eexists. split; [|apply elem_of_brute_force].
    2:{ exists i. split; [done|]. by apply window_match_Some. }
    done.
Qed.

Lemma brute_force_good subsequence sequence K m :
  m ∈ brute_force subsequence sequence K →
  good_match subsequence sequence K m.
Proof.
  intros [? [-> ?]%window_match_Some]%brute_force_window. simpl in *.
  unfold good_match. simpl. split_and!; (done || lia).
Qed.

Lemma seq_StronglySorted (j n : nat) : StronglySorted lt (seq j n).
Proof.
  revert j. induction n as [|n IH]; intros j; simpl; constructor; [done|].
  apply Forall_seq. lia.
Qed.

Lemma seqZ_StronglySorted (m n : Z) : StronglySorted Z.lt (seqZ m n).
Proof.
  unfold seqZ. eapply StronglySorted_fmap; [|apply seq_StronglySorted].
  simpl. lia.
Qed.

Lemma brute_force_StronglySorted subsequence sequence K :
  StronglySorted (λ a b, start a < start b)
    (brute_force subsequence sequence K).
Proof.
  unfold brute_force.
  generalize (seqZ_StronglySorted 0
                (length sequence - length subsequence + 1)).
  induction 1 as [|i l Hl IH Hi]; simpl; [constructor|].
  destruct (window_match subsequence sequence K i) as [m|] eqn:Hm; [|done].
  constructor; [done|]. apply Forall_forall.
  intros m' (i' & Hi' & Hm')%list_elem_of_omap.
  apply window_match_Some in Hm as [-> _].
  apply window_match_Some in Hm' as [-> _]. simpl.
  rewrite Forall_forall in Hi. by apply Hi.
Qed.

Lemma brute_force_sorted subsequence sequence K :
  StronglySorted (λ a b, start a ≤ start b)
    (brute_force subsequence sequence K).
Proof.
  generalize (brute_force_StronglySorted subsequence sequence K).
  induction 1 as [|m l Hl IH Hm]; constructor; [done|].
  eapply Forall_impl; [exact Hm|]. simpl. lia.
Qed.

Lemma brute_force_NoDup subsequence sequence K :
  NoDup (start <$> brute_force subsequence sequence K).
Proof.
  generalize (brute_force_StronglySorted subsequence sequence K).
  induction 1 as [|m l Hl IH Hm]; simpl; constructor; [|done].
  intros (m' & Heq & Hm')%list_elem_of_fmap.
  rewrite Forall_forall in Hm. apply Hm in Hm'. lia.
Qed.

(** No window is within a negative budget. *)
Lemma brute_force_negative subsequence sequence K :
  K < 0 → brute_force subsequence sequence K = [].
Proof.
  intros ?. apply elem_of_nil_inv. intros m Hm.
  apply brute_force_good in Hm as (_ & _ & _ & Hd & ?).
  pose proof (mismatches_nonneg subsequence
                (slice sequence (start m) (end_ m))). lia.
Qed.

(** A sequence shorter than the subsequence has no window. *)
Lemma brute_force_short subsequence sequence K :
  length sequence < length subsequence →
  brute_force subsequence sequence K = [].
Proof. intros ?. unfold brute_force. by rewrite seqZ_nil by lia. Qed.

(** Every window is within a budget of the length of the subsequence. *)
Lemma brute_force_all subsequence sequence K :
  length subsequence ≤ K →
  brute_force subsequence sequence K
  = (λ i, mkMatch i (i + length subsequence)
            (window_dist subsequence sequence i))
      <$> seqZ 0 (length sequence - length subsequence + 1).
Proof.
  intros ?. unfold brute_force.
  induction (seqZ 0 _) as [|i l IH]; simpl; [done|].
  unfold window_match at 1.
  pose proof (window_dist_le_length subsequence sequence i).
  rewrite decide_True by lia. f_equal. apply IH.
Qed.

End brute_force_facts.

(** ** The entry points against the reference *)

Section entry_points.
Context {A : Type} `{Countable A}.
Implicit Types subsequence sequence : list A.

(** The deduplicated, sorted ngram search returns the reference's list. *)
Theorem ngrams_brute_force subsequence sequence (K : Z) :
  0 ≤ K < length subsequence →
  find_near_matches_substitutions_ngrams subsequence sequence K
  = Ok (brute_force subsequence sequence K).
Proof.
  intros HK.
  destruct (ngrams_raw_brute_force subsequence sequence K HK)
    as (ys & Hraw & Hys).
  unfold find_near_matches_substitutions_ngrams, collect.
  rewrite Hraw. simpl.
  destruct (foldl_keep_first ys) as (seen & acc & -> & _ & Hnd & Hacc).
  f_equal. apply sorted_by_start_unique.
  - by rewrite sorted_Permutation.
  - apply brute_force_NoDup.
  - apply sorted_StronglySorted.
  - apply brute_force_sorted.
  - intros m. rewrite elem_of_sorted, Hacc, <-Hys. split.
    + apply first_with_start_elem_of.
    + intros Hm.
      destruct (first_with_start_exists ys m Hm) as (m' & Hfirst & Heq).
      replace m with m'; [done|].
      apply (brute_force_start_inj subsequence sequence K); [| |done].
      * by apply Hys, first_with_start_elem_of.
      * by apply Hys.
Qed.

(** With no substitution allowed, the exact search gives the reference's
    matches. *)
Lemma exact_brute_force subsequence sequence m :
  m ∈ (λ start_index : Z,
         mkMatch start_index (start_index + length subsequence) 0)
        <$> search_exact subsequence sequence 0 (length sequence)
  ↔ m ∈ brute_force subsequence sequence 0.
Proof.
  rewrite list_elem_of_fmap, brute_force_window. split.
  - intros (i & -> & (? & ? & ? & Hi)%elem_of_search_exact). simpl.
    split; [lia|]. apply window_match_Some.
    unfold window_dist. rewrite Hi, mismatches_refl. done.
  - intros [? [Hm Hd]%window_match_Some].
    pose proof (window_dist_nonneg subsequence sequence (start m)).
    assert (window_dist subsequence sequence (start m) = 0) as Hz by lia.
    exists (start m). split; [by rewrite Hm at 1; rewrite Hz|].
    apply elem_of_search_exact. split_and!; try lia.
    symmetry. apply mismatches_0_iff; [|done].
    symmetry. by apply length_window.
Qed.

(** A fragment length of three or more leaves the budget below the length
    of the subsequence. *)
Lemma ngram_route_budget (L K : Z) :
  0 ≤ K → L `div` (K + 1) >= 3 → K < L.
Proof. intros ??. pose proof (Z.mul_div_le L (K + 1)). nia. Qed.

Lemma dispatcher_positive subsequence sequence (K : Z) :
  subsequence ≠ [] → 0 < K →
  find_near_matches_substitutions subsequence sequence K
  = Ok (brute_force subsequence sequence K).
Proof.
  intros ??. unfold find_near_matches_substitutions.
  rewrite !decide_False by (done || lia). case_decide.
  - apply ngrams_brute_force. split; [lia|].
    apply ngram_route_budget; [lia|done].
  - by rewrite linear_programming_brute_force.
Qed.

Theorem dispatcher_brute_force subsequence sequence (K : Z) :
  subsequence ≠ [] → 0 ≤ K →
  ∃ l, find_near_matches_substitutions subsequence sequence K = Ok l ∧
       ∀ m, m ∈ l ↔ m ∈ brute_force subsequence sequence K.
Proof.
  intros ??. destruct (decide (K = 0)) as [->|].
  - unfold find_near_matches_substitutions.
    rewrite !decide_False by (done || lia). rewrite decide_True by done.
    eexists. split; [done|]. apply exact_brute_force.
  - rewrite dispatcher_positive by (done || lia). by eexists.
Qed.

(** A budget of [-2] or less makes the fragment length negative: the loop
    over the fragments has nothing to visit. *)
Lemma ngrams_raw_negative subsequence sequence (K : Z) :
  subsequence ≠ [] → K < -1 →
  _find_near_matches_substitutions_ngrams subsequence sequence K
  = ([], None).
Proof.
  intros Hne ?. unfold _find_near_matches_substitutions_ngrams.
  assert (0 < length subsequence)%nat
    by (destruct subsequence; simpl; [done|lia]).
  assert (length subsequence `div` (K + 1) < 0) as Hg.
  { rewrite <-Z.div_opp_opp by lia. apply Z.div_lt_upper_bound; lia. }
  rewrite !decide_False by lia.
  unfold ngram_starts. by rewrite range_neg_empty by lia.
Qed.

(** The budgets that pass the validation of the ngram matcher, for a
    non-empty subsequence: those below its length, [-1] apart, where the
    fragment length is a division by zero. *)
Lemma ngrams_raw_validation subsequence sequence (K : Z) :
  subsequence ≠ [] →
  (∃ ys, _find_near_matches_substitutions_ngrams subsequence sequence K
         = (ys, None))
  ↔ K < length subsequence ∧ K ≠ -1.
Proof.
  intros Hne. split.
  - intros [ys Hys]. unfold _find_near_matches_substitutions_ngrams in Hys.
    case_decide; [done|]. split; [|lia].
    destruct (decide (K < length subsequence)) as [|Hge]; [done|].
    destruct (decide (K < 0)); [lia|].
    rewrite Z.div_small in Hys by lia. by rewrite decide_True in Hys.
  - intros [??]. destruct (decide (K < 0)).
    + exists []. apply ngrams_raw_negative; [done|lia].
    + destruct (ngrams_raw_brute_force subsequence sequence K)
        as (ys & ? & _); [lia|]. by exists ys.
Qed.

End entry_points.

(** * The properties of [spec.md] *)

Section properties.
Context {A : Type} `{Countable A}.
Implicit Types subsequence sequence : list A.

(** C1 (completeness). For a non-empty subsequence and [K >= 0],
    [find_near_matches_substitutions] returns, and the starts of the matches
    it returns are exactly the window starts [i] with
    [0 <= i <= len(T) - len(S)] whose window differs from the subsequence in
    at most [K] places. *)
Theorem find_near_matches_substitutions_starts subsequence sequence (K : Z) :
  subsequence ≠ [] → 0 ≤ K →
  ∃ l, find_near_matches_substitutions subsequence sequence K = Ok l ∧
       ∀ i, i ∈ start <$> l ↔ valid_window subsequence sequence K i.
Proof.
  intros Hne HK.
  destruct (dispatcher_brute_force subsequence sequence K Hne HK)
    as (l & Hl & Hin).
  exists l. split; [done|]. intros i.
  rewrite <-elem_of_brute_force_starts, !list_elem_of_fmap.
  split; intros (m & ? & ?); exists m; split; try done; by apply Hin.
Qed.

(** C2 (the two matchers agree). For a non-empty subsequence, [K >= 0] and
    [len(S) >= K + 1], the ring-counter matcher and the ngram matcher both
    run to their end without an exception, and the set of [(start, dist)]
    pairs of the matches yielded is the same for the two, and for the
    deduplicated ngram search. *)
Theorem linear_programming_ngrams_same_pairs subsequence sequence (K : Z) :
  subsequence ≠ [] → 0 ≤ K → K + 1 ≤ length subsequence →
  ∃ lp ng l,
    find_near_matches_substitutions_linear_programming subsequence sequence K
    = (lp, None) ∧
    _find_near_matches_substitutions_ngrams subsequence sequence K
    = (ng, None) ∧
    find_near_matches_substitutions_ngrams subsequence sequence K = Ok l ∧
    list_to_set ((λ m, (start m, dist m)) <$> lp)
    =@{gset (Z * Z)} list_to_set ((λ m, (start m, dist m)) <$> ng) ∧
    list_to_set ((λ m, (start m, dist m)) <$> lp)
    =@{gset (Z * Z)} list_to_set ((λ m, (start m, dist m)) <$> l).
Proof.
  intros Hne ??.
  destruct (ngrams_raw_brute_force subsequence sequence K) as (ng & Hng & Hin);
    [lia|].
  exists (brute_force subsequence sequence K), ng,
         (brute_force subsequence sequence K).
  split_and!.
  - by apply linear_programming_brute_force.
  - done.
  - apply ngrams_brute_force. lia.
  - apply set_eq. intros [i d].
    rewrite !elem_of_list_to_set, !list_elem_of_fmap.
    split; intros (m & ? & ?); exists m; split; try done; by apply Hin.
  - done.
Qed.

(** C6 (every match is a true near-match). For a non-empty subsequence and
    [K >= 0], each entry point returns, and every match [m] it returns has
    [0 <= start <= end <= len(T)], [end - start = len(S)], [dist] the count
    of the places where [T[start:end]] differs from the subsequence, and
    [dist <= K]; for the ngram entry points when moreover [len(S) > K]. *)
Theorem matches_are_good subsequence sequence (K : Z) :
  subsequence ≠ [] → 0 ≤ K →
  (∃ l, find_near_matches_substitutions subsequence sequence K = Ok l ∧
        Forall (good_match subsequence sequence K) l) ∧
  (∃ l, find_near_matches_substitutions_linear_programming
          subsequence sequence K = (l, None) ∧
        Forall (good_match subsequence sequence K) l) ∧
  (K < length subsequence →
   (∃ l, _find_near_matches_substitutions_ngrams subsequence sequence K
         = (l, None) ∧
         Forall (good_match subsequence sequence K) l) ∧
   (∃ l, find_near_matches_substitutions_ngrams subsequence sequence K
         = Ok l ∧
         Forall (good_match subsequence sequence K) l)).
Proof.
  intros Hne HK. split_and!.
  - destruct (dispatcher_brute_force subsequence sequence K Hne HK)
      as (l & Hl & Hin).
    exists l. split; [done|]. apply Forall_forall.
    intros m ?%Hin. by apply brute_force_good.
  - eexists. split; [by apply linear_programming_brute_force|].
    apply Forall_forall. intros m. apply brute_force_good.
  - intros ?. split.
    + destruct (ngrams_raw_brute_force subsequence sequence K)
        as (ng & Hng & Hin); [lia|].
      exists ng. split; [done|]. apply Forall_forall.
      intros m ?%Hin. by apply brute_force_good.
    + eexists. split; [by apply ngrams_brute_force|].
      apply Forall_forall. intros m. apply brute_force_good.
Qed.

(** C9 (a budget that covers the subsequence). For a non-empty subsequence,
    [len(T) >= len(S)] and [K >= len(S)], [find_near_matches_substitutions]
    raises nothing and returns one match for each window start from [0] to
    [len(T) - len(S)], in this order, with the window's substitution
    count. *)
Theorem large_budget_all_windows subsequence sequence (K : Z) :
  subsequence ≠ [] → length subsequence ≤ length sequence →
  length subsequence ≤ K →
  find_near_matches_substitutions subsequence sequence K
  = Ok ((λ i, mkMatch i (i + length subsequence)
                (window_dist subsequence sequence i))
          <$> seqZ 0 (length sequence - length subsequence + 1)).
Proof.
  intros Hne ??.
  assert (0 < length subsequence)%nat
    by (destruct subsequence; simpl; [done|lia]).
  rewrite dispatcher_positive by (done || lia).
  by rewrite brute_force_all.
Qed.

(** C10 (a sequence shorter than the subsequence). For a non-empty
    subsequence and [len(T) < len(S)]: the dispatcher, for [K >= 0], and the
    ring-counter matcher return no match and raise nothing; so do the ngram
    entry points for every budget that passes their validation, which
    [ngrams_raw_validation] shows are the budgets [K < len(S)] other than
    [-1], and the existence probe answers false. *)
Theorem short_sequence_empty subsequence sequence (K : Z) :
  subsequence ≠ [] → length sequence < length subsequence →
  (0 ≤ K → find_near_matches_substitutions subsequence sequence K = Ok []) ∧
  find_near_matches_substitutions_linear_programming subsequence sequence K
  = ([], None) ∧
  (K < length subsequence → K ≠ -1 →
   _find_near_matches_substitutions_ngrams subsequence sequence K
   = ([], None) ∧
   find_near_matches_substitutions_ngrams subsequence sequence K = Ok [] ∧
   has_near_match_substitutions_ngrams subsequence sequence K = Ok false).
Proof.
  intros Hne Hshort. split_and!.
  - intros HK.
    destruct (dispatcher_brute_force subsequence sequence K Hne HK)
      as (l & -> & Hin).
    f_equal. apply elem_of_nil_inv. intros m Hm%Hin.
    rewrite brute_force_short in Hm by done. by apply elem_of_nil in Hm.
  - rewrite linear_programming_brute_force by done.
    by rewrite brute_force_short.
  - intros ??.
    assert (_find_near_matches_substitutions_ngrams subsequence sequence K
            = ([], None)) as Hraw.
    { destruct (decide (K < 0)); [apply ngrams_raw_negative; [done|lia]|].
      destruct (ngrams_raw_brute_force subsequence sequence K)
        as (ng & -> & Hin); [lia|].
      f_equal. apply elem_of_nil_inv. intros m Hm%Hin.
      rewrite brute_force_short in Hm by done. by apply elem_of_nil in Hm. }
    unfold find_near_matches_substitutions_ngrams,
      has_near_match_substitutions_ngrams.
    by rewrite Hraw.
Qed.

(** C7 (deduplication and order of the ngram search). For a non-empty
    subsequence and [len(S) > K >= 0], the list that
    [find_near_matches_substitutions_ngrams] returns has no two matches with
    one start, is in ascending order of start, and holds exactly the matches
    that were the first yielded with their start by the raw ngram
    enumeration; any two matches yielded with one start are the same
    match. *)
Theorem ngrams_unique_sorted_first subsequence sequence (K : Z) :
  subsequence ≠ [] → 0 ≤ K < length subsequence →
  ∃ ys l,
    _find_near_matches_substitutions_ngrams subsequence sequence K
    = (ys, None) ∧
    find_near_matches_substitutions_ngrams subsequence sequence K = Ok l ∧
    NoDup (start <$> l) ∧
    StronglySorted (λ a b, start a ≤ start b) l ∧
    (∀ m, m ∈ l ↔ first_with_start ys m) ∧
    (∀ m m', m ∈ ys → m' ∈ ys → start m = start m' → m = m').
Proof.
  intros _ HK.
  destruct (ngrams_raw_brute_force subsequence sequence K HK)
    as (ys & Hraw & Hys).
  exists ys. unfold find_near_matches_substitutions_ngrams, collect.
  rewrite Hraw. simpl.
  destruct (foldl_keep_first ys) as (seen & acc & -> & _ & Hnd & Hacc).
  eexists. split_and!; [done..| | | |].
  - by rewrite sorted_Permutation.
  - apply sorted_StronglySorted.
  - intros m. by rewrite elem_of_sorted.
  - intros m m' ?%Hys ?%Hys. by eapply brute_force_start_inj.
Qed.

(** C8 (the existence probe). For a non-empty subsequence and
    [len(S) > K >= 0], [has_near_match_substitutions_ngrams] returns a
    boolean, which is true iff some window of the sequence differs from the
    subsequence in at most [K] places, iff
    [find_near_matches_substitutions_ngrams] returns a non-empty list, and
    iff the raw enumeration yields a first candidate; it is false only when
    the enumeration ends having yielded nothing. *)
Theorem has_near_match_iff subsequence sequence (K : Z) :
  subsequence ≠ [] → 0 ≤ K < length subsequence →
  ∃ b : bool,
    has_near_match_substitutions_ngrams subsequence sequence K = Ok b ∧
    (b = true ↔ ∃ i, valid_window subsequence sequence K i) ∧
    (b = true ↔
       ∃ l, find_near_matches_substitutions_ngrams subsequence sequence K
            = Ok l ∧ l ≠ []) ∧
    (b = true ↔
       ∃ m ys e, _find_near_matches_substitutions_ngrams
                   subsequence sequence K = (m :: ys, e)) ∧
    (b = false ↔
       _find_near_matches_substitutions_ngrams subsequence sequence K
       = ([], None)).
Proof.
  intros _ HK.
  destruct (ngrams_raw_brute_force subsequence sequence K HK)
    as (ys & Hraw & Hys).
  unfold has_near_match_substitutions_ngrams.
  rewrite ngrams_brute_force, Hraw by done.
  destruct ys as [|m ys].
  - assert (brute_force subsequence sequence K = []) as Hbf.
    { apply elem_of_nil_inv. intros m Hm%Hys. by apply elem_of_nil in Hm. }
    exists false. split_and!; [done|..]; (split; [done|]).
    + intros [i Hi%elem_of_brute_force_starts].
      rewrite Hbf in Hi. by apply elem_of_nil in Hi.
    + intros (l & [= <-] & ?). done.
    + intros (? & ? & ? & ?). done.
    + done.
  - assert (m ∈ brute_force subsequence sequence K) as Hm
      by (apply Hys; left).
    exists true. split_and!; [done|..]; (split; [|done]).
    + intros _. exists (start m). apply elem_of_brute_force_starts.
      by apply list_elem_of_fmap_2.
    + intros _. eexists. split; [done|]. intros Hbf.
      rewrite Hbf in Hm. by apply elem_of_nil in Hm.
    + intros _. by eexists _, _, _.
    + done.
Qed.

(** C3, amended (the number of fragments). For a non-empty subsequence and
    [K >= 0] with fragment length [g = len(S) // (K + 1) >= 1], the fragment
    loop visits the starts [0, g, 2g, ...], [len(S) // g] of them, which is
    at least [K + 1], and exactly [K + 1] when [len(S)] is an exact multiple
    of [K + 1]. *)
Theorem ngram_starts_count subsequence (K : Z) :
  subsequence ≠ [] → 0 ≤ K →
  1 ≤ length subsequence `div` (K + 1) →
  ∃ starts,
    ngram_starts (length subsequence) (length subsequence `div` (K + 1))
    = Ok starts ∧
    starts = (λ k, k * (length subsequence `div` (K + 1)))
               <$> seqZ 0 (length subsequence
                             `div` (length subsequence `div` (K + 1))) ∧
    Z.of_nat (length starts)
    = length subsequence `div` (length subsequence `div` (K + 1)) ∧
    K + 1 ≤ length starts ∧
    (length subsequence `mod` (K + 1) = 0 →
     Z.of_nat (length starts) = K + 1).
Proof.
  intros _ HK Hg.
  set (L := Z.of_nat (length subsequence)) in *.
  set (g := L `div` (K + 1)) in *.
  pose proof (Z.mul_div_le L (K + 1) ltac:(lia)) as HgL. fold g in HgL.
  assert (K + 1 ≤ L `div` g) as Hn by (apply Z.div_le_lower_bound; lia).
  exists ((λ k, k * g) <$> seqZ 0 (L `div` g)).
  assert (Z.of_nat (length ((λ k, k * g) <$> seqZ 0 (L `div` g)))
          = L `div` g) as Hlen.
  { rewrite length_fmap, length_seqZ. lia. }
  split_and!; [|done|done|lia|].
  - rewrite ngram_starts_ok by nia. done.
  - intros Hmod. rewrite Hlen.
    pose proof (Z.div_mod L (K + 1) ltac:(lia)) as Hdm.
    rewrite Hmod in Hdm. fold g in Hdm.
    replace L with ((K + 1) * g) at 1 by lia.
    apply Z.div_mul. lia.
Qed.

(** C4, amended (a negative budget). For a non-empty subsequence and
    [max_substitutions < 0], [find_near_matches_substitutions] fails with
    the [NegativeBudget] error and returns nothing. The other entry points
    do not look at the sign of the budget: the ring-counter matcher yields
    no match and raises nothing, and so do the ngram entry points for
    [max_substitutions <= -2], the existence probe answering false. *)
Theorem negative_budget_by_entry_point subsequence sequence (K : Z) :
  subsequence ≠ [] → K < 0 →
  find_near_matches_substitutions subsequence sequence K
  = Raise NegativeBudget ∧
  find_near_matches_substitutions_linear_programming subsequence sequence K
  = ([], None) ∧
  (K ≤ -2 →
   find_near_matches_substitutions_ngrams subsequence sequence K = Ok [] ∧
   has_near_match_substitutions_ngrams subsequence sequence K = Ok false).
Proof.
  intros Hne ?. split_and!.
  - unfold find_near_matches_substitutions.
    rewrite decide_False by done. by rewrite decide_True by done.
  - rewrite linear_programming_brute_force by done.
    by rewrite brute_force_negative.
  - intros ?. unfold find_near_matches_substitutions_ngrams,
      has_near_match_substitutions_ngrams.
    by rewrite ngrams_raw_negative by (done || lia).
Qed.

(** C5, amended (an empty subsequence). Whatever the sequence and the
    budget, [find_near_matches_substitutions] and the ring-counter matcher
    fail on an empty subsequence with the [EmptySubsequence] error, having
    yielded nothing. The ngram entry points have no check of their own for
    it: the fragment length is zero and, for a budget other than [-1], they
    fail with the [BudgetExceedsLength] error, having yielded nothing. *)
Theorem empty_subsequence_by_entry_point sequence (K : Z) :
  find_near_matches_substitutions [] sequence K = Raise EmptySubsequence ∧
  find_near_matches_substitutions_linear_programming [] sequence K
  = ([], Some EmptySubsequence) ∧
  (K ≠ -1 →
   _find_near_matches_substitutions_ngrams [] sequence K
   = ([], Some BudgetExceedsLength) ∧
   find_near_matches_substitutions_ngrams [] sequence K
   = Raise BudgetExceedsLength ∧
   has_near_match_substitutions_ngrams [] sequence K
   = Raise BudgetExceedsLength).
Proof.
  split_and!; [done..|]. intros ?.
  assert (_find_near_matches_substitutions_ngrams [] sequence K
          = ([], Some BudgetExceedsLength)) as Hraw.
  { unfold _find_near_matches_substitutions_ngrams. simpl.
    by rewrite decide_False by lia. }
  unfold find_near_matches_substitutions_ngrams,
    has_near_match_substitutions_ngrams.
  by rewrite Hraw.
Qed.

End properties.

(** ** The examples of [spec.md], on strings *)

Example abc_in_abc :
  find_near_matches_substitutions (chars "abc") (chars "abc") 0
  = Ok [mkMatch 0 3 0].
Proof. vm_compute. reflexivity. Qed.

Example abc_in_axc :
  find_near_matches_substitutions (chars "abc") (chars "axc") 1
  = Ok [mkMatch 0 3 1].
Proof. vm_compute. reflexivity. Qed.

Example abc_in_xyz :
  find_near_matches_substitutions (chars "abc") (chars "xyz") 0 = Ok [].
Proof. vm_compute. reflexivity. Qed.

Example aaaa_in_aaaaaaaa :
  start <$> (find_near_matches_substitutions_linear_programming
               (chars "aaaa") (chars "aaaaaaaa") 0).1
  = [0; 1; 2; 3; 4].
Proof. vm_compute. reflexivity. Qed.

(** The raw ngram enumeration may yield a window once per fragment. *)
Example ngrams_raw_repeats :
  start <$> (_find_near_matches_substitutions_ngrams
               (chars "abcdef") (chars "abcdefxabcxef") 1).1
  = [0; 7; 0].
Proof. vm_compute. reflexivity. Qed.

Example ngrams_deduplicated :
  find_near_matches_substitutions_ngrams
    (chars "abcdef") (chars "abcdefxabcxef") 1
  = Ok [mkMatch 0 6 0; mkMatch 7 13 1].
Proof. vm_compute. reflexivity. Qed.

(** A budget of [-1] makes the ngram entry points divide by zero. *)
Example ngrams_minus_one :
  find_near_matches_substitutions_ngrams (chars "abc") (chars "abc") (-1)
  = Raise ZeroDivisionError.
Proof. vm_compute. reflexivity. Qed.

(** ** Instances of the properties, and what fails of C3, C4 and C5 *)

Lemma find_near_matches_substitutions_starts_witness :
  [1; 2; 3]%nat ≠ [] ∧ 0 ≤ 1 ∧
  ∃ l, find_near_matches_substitutions
         [1; 2; 3]%nat [1; 2; 4; 1; 2; 3]%nat 1 = Ok l ∧
       ∀ i, i ∈ start <$> l
            ↔ valid_window [1; 2; 3]%nat [1; 2; 4; 1; 2; 3]%nat 1 i.
Proof.
  split; [done|]. split; [lia|].
  apply (find_near_matches_substitutions_starts
           [1; 2; 3]%nat [1; 2; 4; 1; 2; 3]%nat 1); [done|lia].
Defined.

Lemma linear_programming_ngrams_same_pairs_witness :
  [1; 2; 3]%nat ≠ [] ∧ 0 ≤ 1 ∧ 1 + 1 ≤ length [1; 2; 3]%nat ∧
  ∃ lp ng l,
    find_near_matches_substitutions_linear_programming
      [1; 2; 3]%nat [1; 2; 4; 1; 2; 3]%nat 1 = (lp, None) ∧
    _find_near_matches_substitutions_ngrams
      [1; 2; 3]%nat [1; 2; 4; 1; 2; 3]%nat 1 = (ng, None) ∧
    find_near_matches_substitutions_ngrams
      [1; 2; 3]%nat [1; 2; 4; 1; 2; 3]%nat 1 = Ok l ∧
    list_to_set ((λ m, (start m, dist m)) <$> lp)
    =@{gset (Z * Z)} list_to_set ((λ m, (start m, dist m)) <$> ng) ∧
    list_to_set ((λ m, (start m, dist m)) <$> lp)
    =@{gset (Z * Z)} list_to_set ((λ m, (start m, dist m)) <$> l).
Proof.
  split; [done|]. split; [lia|]. split; [simpl; lia|].
  apply (linear_programming_ngrams_same_pairs
           [1; 2; 3]%nat [1; 2; 4; 1; 2; 3]%nat 1); [done|lia|simpl; lia].
Defined.

Lemma matches_are_good_witness :
  [1; 2; 3]%nat ≠ [] ∧ 0 ≤ 1 ∧
  ∃ l, find_near_matches_substitutions
         [1; 2; 3]%nat [1; 2; 4; 1; 2; 3]%nat 1 = Ok l ∧
       Forall (good_match [1; 2; 3]%nat [1; 2; 4; 1; 2; 3]%nat 1) l.
Proof.
  split; [done|]. split; [lia|].
  apply (matches_are_good [1; 2; 3]%nat [1; 2; 4; 1; 2; 3]%nat 1);
    [done|lia].
Defined.

Lemma ngrams_unique_sorted_first_witness :
  [1; 2; 3; 4; 5; 6]%nat ≠ [] ∧
  0 ≤ 1 < length [1; 2; 3; 4; 5; 6]%nat ∧
  ∃ ys l,
    _find_near_matches_substitutions_ngrams
      [1; 2; 3; 4; 5; 6]%nat [1; 2; 3; 4; 5; 6; 0; 1; 2; 3; 0; 5; 6]%nat 1
    = (ys, None) ∧
    find_near_matches_substitutions_ngrams
      [1; 2; 3; 4; 5; 6]%nat [1; 2; 3; 4; 5; 6; 0; 1; 2; 3; 0; 5; 6]%nat 1
    = Ok l ∧
    NoDup (start <$> l) ∧
    StronglySorted (λ a b, start a ≤ start b) l ∧
    (∀ m, m ∈ l ↔ first_with_start ys m) ∧
    (∀ m m', m ∈ ys → m' ∈ ys → start m = start m' → m = m').
Proof.
  split; [done|]. split; [simpl; lia|].
  apply (ngrams_unique_sorted_first
           [1; 2; 3; 4; 5; 6]%nat
           [1; 2; 3; 4; 5; 6; 0; 1; 2; 3; 0; 5; 6]%nat 1);
    [done|simpl; lia].
Defined.

Lemma has_near_match_iff_witness :
  [1; 2; 3]%nat ≠ [] ∧ 0 ≤ 1 < length [1; 2; 3]%nat ∧
  ∃ b : bool,
    has_near_match_substitutions_ngrams
      [1; 2; 3]%nat [1; 2; 4; 1; 2; 3]%nat 1 = Ok b ∧
    (b = true ↔
       ∃ i, valid_window [1; 2; 3]%nat [1; 2; 4; 1; 2; 3]%nat 1 i) ∧
    (b = true ↔
       ∃ l, find_near_matches_substitutions_ngrams
              [1; 2; 3]%nat [1; 2; 4; 1; 2; 3]%nat 1 = Ok l ∧ l ≠ []) ∧
    (b = true ↔
       ∃ m ys e, _find_near_matches_substitutions_ngrams
                   [1; 2; 3]%nat [1; 2; 4; 1; 2; 3]%nat 1 = (m :: ys, e)) ∧
    (b = false ↔
       _find_near_matches_substitutions_ngrams
         [1; 2; 3]%nat [1; 2; 4; 1; 2; 3]%nat 1 = ([], None)).
Proof.
  split; [done|]. split; [simpl; lia|].
  apply (has_near_match_iff [1; 2; 3]%nat [1; 2; 4; 1; 2; 3]%nat 1);
    [done|simpl; lia].
Defined.

Lemma large_budget_all_windows_witness :
  [1; 2]%nat ≠ [] ∧ length [1; 2]%nat ≤ length [3; 1; 2; 4]%nat ∧
  length [1; 2]%nat ≤ 2 ∧
  find_near_matches_substitutions [1; 2]%nat [3; 1; 2; 4]%nat 2
  = Ok ((λ i, mkMatch i (i + length [1; 2]%nat)
                (window_dist [1; 2]%nat [3; 1; 2; 4]%nat i))
          <$> seqZ 0 (length [3; 1; 2; 4]%nat - length [1; 2]%nat + 1)).
Proof.
  split; [done|]. split; [simpl; lia|]. split; [simpl; lia|].
  apply (large_budget_all_windows [1; 2]%nat [3; 1; 2; 4]%nat 2);
    [done|simpl; lia|simpl; lia].
Defined.

Lemma short_sequence_empty_witness :
  [1; 2; 3]%nat ≠ [] ∧ length [1; 2]%nat < length [1; 2; 3]%nat ∧
  find_near_matches_substitutions [1; 2; 3]%nat [1; 2]%nat 1 = Ok [] ∧
  find_near_matches_substitutions_linear_programming
    [1; 2; 3]%nat [1; 2]%nat 1 = ([], None) ∧
  find_near_matches_substitutions_ngrams [1; 2; 3]%nat [1; 2]%nat 1 = Ok [] ∧
  has_near_match_substitutions_ngrams [1; 2; 3]%nat [1; 2]%nat 1 = Ok false.
Proof.
  split; [done|]. split; [simpl; lia|].
  destruct (short_sequence_empty [1; 2; 3]%nat [1; 2]%nat 1)
    as (Hd & Hl & Hn); [done|simpl; lia|].
  destruct Hn as (_ & Hn & Hh); [simpl; lia|lia|].
  split; [apply Hd; lia|]. split; [exact Hl|]. split; [exact Hn|exact Hh].
Defined.

Lemma ngram_starts_count_witness :
  [1; 2; 3; 4; 5; 6; 7]%nat ≠ [] ∧ 0 ≤ 2 ∧
  1 ≤ length [1; 2; 3; 4; 5; 6; 7]%nat `div` (2 + 1) ∧
  ∃ starts,
    ngram_starts (length [1; 2; 3; 4; 5; 6; 7]%nat)
      (length [1; 2; 3; 4; 5; 6; 7]%nat `div` (2 + 1)) = Ok starts ∧
    starts = (λ k, k * (length [1; 2; 3; 4; 5; 6; 7]%nat `div` (2 + 1)))
               <$> seqZ 0 (length [1; 2; 3; 4; 5; 6; 7]%nat
                             `div` (length [1; 2; 3; 4; 5; 6; 7]%nat
                                      `div` (2 + 1))) ∧
    Z.of_nat (length starts)
    = length [1; 2; 3; 4; 5; 6; 7]%nat
        `div` (length [1; 2; 3; 4; 5; 6; 7]%nat `div` (2 + 1)) ∧
    2 + 1 ≤ length starts ∧
    (length [1; 2; 3; 4; 5; 6; 7]%nat `mod` (2 + 1) = 0 →
     Z.of_nat (length starts) = 2 + 1).
Proof.
  split; [done|]. split; [lia|]. split; [by vm_compute|].
  apply (ngram_starts_count [1; 2; 3; 4; 5; 6; 7]%nat 2);
    [done|lia|by vm_compute].
Defined.

(** C3 as stated fails: a subsequence of five items with [K = 2] has
    fragments of length [1], of which the loop visits five, not at most
    three, although [5] is an exact multiple of [1]. *)
Lemma ngram_starts_at_most_counterexample :
  [1; 2; 3; 4; 5]%nat ≠ [] ∧ 0 ≤ 2 ∧
  1 ≤ length [1; 2; 3; 4; 5]%nat `div` (2 + 1) ∧
  length [1; 2; 3; 4; 5]%nat
    `mod` (length [1; 2; 3; 4; 5]%nat `div` (2 + 1)) = 0 ∧
  ngram_starts (length [1; 2; 3; 4; 5]%nat)
    (length [1; 2; 3; 4; 5]%nat `div` (2 + 1)) = Ok [0; 1; 2; 3; 4] ∧
  ¬ (length [0; 1; 2; 3; 4] ≤ 2 + 1) ∧
  Z.of_nat (length [0; 1; 2; 3; 4]) ≠ 2 + 1.
Proof. split_and!; try done; by vm_compute. Qed.

Lemma negative_budget_by_entry_point_witness :
  [1; 2; 3]%nat ≠ [] ∧ -2 < 0 ∧
  find_near_matches_substitutions [1; 2; 3]%nat [1; 2; 3]%nat (-2)
  = Raise NegativeBudget ∧
  find_near_matches_substitutions_linear_programming
    [1; 2; 3]%nat [1; 2; 3]%nat (-2) = ([], None) ∧
  (-2 ≤ -2 →
   find_near_matches_substitutions_ngrams [1; 2; 3]%nat [1; 2; 3]%nat (-2)
   = Ok [] ∧
   has_near_match_substitutions_ngrams [1; 2; 3]%nat [1; 2; 3]%nat (-2)
   = Ok false).
Proof.
  split; [done|]. split; [lia|].
  apply (negative_budget_by_entry_point [1; 2; 3]%nat [1; 2; 3]%nat (-2));
    [done|lia].
Defined.

(** C4 as stated fails: with a negative budget the ring-counter matcher and
    the ngram entry points raise no [NegativeBudget] error; they end
    normally with no match. *)
Lemma negative_budget_counterexample :
  find_near_matches_substitutions_linear_programming
    [1; 2; 3]%nat [1; 2; 3]%nat (-1) = ([], None) ∧
  (find_near_matches_substitutions_linear_programming
     [1; 2; 3]%nat [1; 2; 3]%nat (-1)).2 ≠ Some NegativeBudget ∧
  find_near_matches_substitutions_ngrams [1; 2; 3]%nat [1; 2; 3]%nat (-2)
  = Ok [] ∧
  find_near_matches_substitutions_ngrams [1; 2; 3]%nat [1; 2; 3]%nat (-2)
  ≠ Raise NegativeBudget ∧
  has_near_match_substitutions_ngrams [1; 2; 3]%nat [1; 2; 3]%nat (-2)
  = Ok false.
Proof. split_and!; by vm_compute. Qed.

Lemma empty_subsequence_by_entry_point_witness :
  0 ≠ -1 ∧
  _find_near_matches_substitutions_ngrams [] [1; 2; 3]%nat 0
  = ([], Some BudgetExceedsLength) ∧
  find_near_matches_substitutions_ngrams [] [1; 2; 3]%nat 0
  = Raise BudgetExceedsLength ∧
  has_near_match_substitutions_ngrams [] [1; 2; 3]%nat 0
  = Raise BudgetExceedsLength.
Proof.
  split; [lia|].
  destruct (empty_subsequence_by_entry_point [1; 2; 3]%nat 0) as (_ & _ & Hn).
  apply Hn. lia.
Defined.

(** C5 as stated fails: on an empty subsequence the ngram entry points fail
    with the error of a budget that exceeds the length, not with
    [EmptySubsequence]. *)
Lemma empty_subsequence_counterexample :
  find_near_matches_substitutions_ngrams [] [1; 2; 3]%nat 0
  = Raise BudgetExceedsLength ∧
  find_near_matches_substitutions_ngrams [] [1; 2; 3]%nat 0
  ≠ Raise EmptySubsequence ∧
  has_near_match_substitutions_ngrams [] [1; 2; 3]%nat 0
  = Raise BudgetExceedsLength ∧
  has_near_match_substitutions_ngrams [] [1; 2; 3]%nat 0
  ≠ Raise EmptySubsequence.
Proof. split_and!; by vm_compute. Qed.

(** * Further properties of the module *)

(** ** More on the reference *)

Section more_brute_force_facts.
Context {A : Type} `{Countable A}.
Implicit Types subsequence sequence : list A.

Lemma omap_ext_elem_of {X Y} (f g : X → option Y) (l : list X) :
  (∀ x, x ∈ l → f x = g x) → omap f l = omap g l.
Proof.
  induction l as [|x l IH]; intros Hfg; [done|]. simpl.
  rewrite (Hfg x) by left.
  assert (omap f l = omap g l) as Hl
    by (apply IH; intros y ?; apply Hfg; by right).
  destruct (g x); [f_equal|]; apply Hl.
Qed.

Lemma length_omap_le {X Y} (f : X → option Y) (l : list X) :
  (length (omap f l) ≤ length l)%nat.
Proof.
  induction l as [|x l IH]; simpl; [done|].
  destruct (f x); simpl; [apply le_n_S|apply Nat.le_le_succ_r]; apply IH.
Qed.

Lemma length_brute_force subsequence sequence K :
  Z.of_nat (length (brute_force subsequence sequence K))
  ≤ Z.max 0 (length sequence - length subsequence + 1).
Proof.
  unfold brute_force.
  pose proof (length_omap_le (window_match subsequence sequence K)
                (seqZ 0 (length sequence - length subsequence + 1))) as Hl.
  rewrite length_seqZ in Hl. lia.
Qed.

(** A smaller budget keeps the matches within it, and nothing else. *)
Lemma brute_force_filter subsequence sequence (K K' : Z) :
  K ≤ K' →
  brute_force subsequence sequence K
  = filter (λ m, dist m ≤ K) (brute_force subsequence sequence K').
Proof.
  intros ?. unfold brute_force.
  induction (seqZ 0 _) as [|i l IH]; [done|]. simpl.
  destruct (window_match subsequence sequence K i) as [m|] eqn:Hm;
    destruct (window_match subsequence sequence K' i) as [m'|] eqn:Hm'.
  - apply window_match_Some in Hm as [-> ?].
    apply window_match_Some in Hm' as [-> ?].
    rewrite filter_cons_True by done. f_equal. apply IH.
  - apply window_match_Some in Hm as [-> ?].
    unfold window_match in Hm'. by rewrite decide_True in Hm' by lia.
  - apply window_match_Some in Hm' as [-> ?].
    rewrite filter_cons_False; [apply IH|]. simpl. intros ?.
    unfold window_match in Hm. by rewrite decide_True in Hm by done.
  - apply IH.
Qed.

(** The windows of a sequence are windows of any sequence it begins. *)
Lemma window_dist_app subsequence sequence more (i : Z) :
  0 ≤ i ≤ length sequence - length subsequence →
  window_dist subsequence (sequence ++ more) i
  = window_dist subsequence sequence i.
Proof.
  intros ?. unfold window_dist. f_equal.
  rewrite !slice_take_drop by lia.
  rewrite drop_app_le by lia.
  rewrite take_app_le; [done|]. rewrite length_drop. lia.
Qed.

Lemma brute_force_app subsequence sequence more K :
  brute_force subsequence sequence K
  `prefix_of` brute_force subsequence (sequence ++ more) K.
Proof.
  destruct (decide (length sequence < length subsequence)).
  { rewrite brute_force_short by done. apply prefix_nil. }
  unfold brute_force. rewrite length_app.
  replace (Z.of_nat (length sequence + length more)
           - length subsequence + 1)
    with ((length sequence - length subsequence + 1) + length more) by lia.
  rewrite (seqZ_app 0 (length sequence - length subsequence + 1)
             (length more)), omap_app by lia.
  apply prefix_app_r.
  rewrite (omap_ext_elem_of (window_match subsequence (sequence ++ more) K)
             (window_match subsequence sequence K)); [done|].
  intros i Hi%elem_of_seqZ. unfold window_match.
  by rewrite window_dist_app by lia.
Qed.

(** A sequence holds itself once, at its start. *)
Lemma brute_force_self subsequence K :
  0 ≤ K →
  brute_force subsequence subsequence K
  = [mkMatch 0 (length subsequence) 0].
Proof.
  intros ?. unfold brute_force.
  replace (Z.of_nat (length subsequence) - length subsequence + 1)
    with 1 by lia.
  change (seqZ 0 1) with [0]. simpl. unfold window_match, window_dist.
  rewrite Z.add_0_l, slice_all, mismatches_refl.
  by rewrite decide_True by done.
Qed.

(** A window of a sequence is a window of the sequence with more in front,
    further right by what was put in front. *)
Lemma window_dist_shift subsequence front sequence (i : Z) :
  0 ≤ i →
  window_dist subsequence (front ++ sequence) (length front + i)
  = window_dist subsequence sequence i.
Proof.
  intros ?. unfold window_dist. f_equal.
  rewrite !slice_take_drop by lia. f_equal.
  replace (Z.to_nat (length front + i))
    with (length front + Z.to_nat i)%nat by lia.
  apply drop_app_add.
Qed.

Lemma filter_all {X} (P : X → Prop) `{∀ x, Decision (P x)} (l : list X) :
  Forall P l → filter P l = l.
Proof.
  induction 1 as [|x l ?? IH]; [done|].
  rewrite filter_cons_True by done. by rewrite IH.
Qed.

Lemma filter_none {X} (P : X → Prop) `{∀ x, Decision (P x)} (l : list X) :
  Forall (λ x, ¬ P x) l → filter P l = [].
Proof.
  induction 1 as [|x l ?? IH]; [done|]. by rewrite filter_cons_False.
Qed.

Lemma brute_force_shift subsequence front sequence K :
  filter (λ m, length front ≤ start m)
    (brute_force subsequence (front ++ sequence) K)
  = (λ m, mkMatch (start m + length front) (end_ m + length front) (dist m))
      <$> brute_force subsequence sequence K.
Proof.
  destruct (decide (length sequence < length subsequence)).
  { rewrite (brute_force_short _ sequence) by done. simpl.
    apply filter_none, Forall_forall.
    intros m [? _]%brute_force_window. rewrite length_app in *. lia. }
  unfold brute_force. rewrite length_app.
  replace (Z.of_nat (length front + length sequence)
           - length subsequence + 1)
    with (length front + (length sequence - length subsequence + 1)) by lia.
  rewrite (seqZ_app 0 (length front)), omap_app, filter_app by lia.
  rewrite filter_none, app_nil_l.
  2:{ apply Forall_forall.
      intros m (i & Hi%elem_of_seqZ & [-> _]%window_match_Some)
        %list_elem_of_omap. simpl. lia. }
  rewrite filter_all.
  2:{ apply Forall_forall.
      intros m (i & Hi%elem_of_seqZ & [-> _]%window_match_Some)
        %list_elem_of_omap. simpl. lia. }
  rewrite Z.add_0_l.
  rewrite <-(Z.add_0_r (length front)) at 1. rewrite <-fmap_add_seqZ.
  generalize (Forall_seqZ (λ i, 0 ≤ i) 0
                (length sequence - length subsequence + 1)).
  intros [_ Hnn]. specialize (Hnn ltac:(intros; lia)).
  induction Hnn as [|i l Hi Hl IH]; [done|].
  rewrite fmap_cons.
  assert (∀ (f : Z → option Match) x xs,
            omap f (x :: xs)
            = match f x with
              | Some y => y :: omap f xs
              | None => omap f xs
              end) as Hcons by done.
  rewrite !Hcons, IH. unfold window_match.
  rewrite window_dist_shift by done.
  case_decide; [|done]. rewrite fmap_cons. simpl. do 2 f_equal; lia.
Qed.

Lemma NoDup_singleton_eq {X} (l : list X) (a : X) :
  NoDup l → (∀ x, x ∈ l ↔ x = a) → l = [a].
Proof.
  intros Hnd Hin. destruct l as [|x [|y l]].
  - assert (a ∈ @nil X) as Ha by by apply Hin. by apply elem_of_nil in Ha.
  - f_equal. apply Hin. left.
  - assert (x = a) by (apply Hin; left).
    assert (y = a) by (apply Hin; right; left). subst.
    apply NoDup_cons in Hnd as [Hx _]. destruct Hx. left.
Qed.

Lemma search_exact_NoDup subsequence sequence (lo hi : Z) :
  NoDup (search_exact subsequence sequence lo hi).
Proof. unfold search_exact. apply NoDup_filter, NoDup_seqZ. Qed.

End more_brute_force_facts.

(** ** What a caller can rely on *)

Section further_properties.
Context {A : Type} `{Countable A}.
Implicit Types subsequence sequence : list A.

(** X1. On a non-empty subsequence the ring-counter matcher never raises,
    whatever the sequence and the budget (no index of the ring is out of
    range); it yields its matches in strictly increasing order of start, and
    at most [len(T) - len(S) + 1] of them. *)
Theorem linear_programming_in_order subsequence sequence (K : Z) :
  subsequence ≠ [] →
  ∃ l,
    find_near_matches_substitutions_linear_programming subsequence sequence K
    = (l, None) ∧
    StronglySorted (λ a b, start a < start b) l ∧
    Z.of_nat (length l) ≤ Z.max 0 (length sequence - length subsequence + 1).
Proof.
  intros Hne. exists (brute_force subsequence sequence K). split_and!.
  - by apply linear_programming_brute_force.
  - apply brute_force_StronglySorted.
  - apply length_brute_force.
Qed.

(** X2. The ring-counter matcher streams: what it yields on a sequence is
    the beginning of what it yields on any longer sequence that starts with
    it. *)
Theorem linear_programming_streams subsequence sequence more (K : Z) :
  subsequence ≠ [] →
  (find_near_matches_substitutions_linear_programming
     subsequence sequence K).1
  `prefix_of`
  (find_near_matches_substitutions_linear_programming
     subsequence (sequence ++ more) K).1.
Proof.
  intros Hne. rewrite !linear_programming_brute_force by done. simpl.
  apply brute_force_app.
Qed.

(** X3. Lowering the budget only drops matches: the matches for [K] are
    those for a larger [K'] whose [dist] is at most [K], in the same order.
    This holds for the ring-counter matcher, and for the ngram search when
    both budgets pass its validation. *)
Theorem smaller_budget_filters subsequence sequence (K K' : Z) :
  subsequence ≠ [] → K ≤ K' →
  (find_near_matches_substitutions_linear_programming
     subsequence sequence K).1
  = filter (λ m, dist m ≤ K)
      (find_near_matches_substitutions_linear_programming
         subsequence sequence K').1 ∧
  (0 ≤ K → K' < length subsequence →
   ∃ l l',
     find_near_matches_substitutions_ngrams subsequence sequence K = Ok l ∧
     find_near_matches_substitutions_ngrams subsequence sequence K' = Ok l' ∧
     l = filter (λ m, dist m ≤ K) l').
Proof.
  intros Hne ?. split.
  - rewrite !linear_programming_brute_force by done. simpl.
    by apply brute_force_filter.
  - intros ??. eexists _, _. split_and!.
    + apply ngrams_brute_force. lia.
    + apply ngrams_brute_force. lia.
    + by apply brute_force_filter.
Qed.

(** X4. A non-empty sequence searched in itself gives one match, the whole
    of it with no substitution, for every budget [K >= 0]: from the
    dispatcher and from the ring-counter matcher. *)
Theorem search_in_itself subsequence (K : Z) :
  subsequence ≠ [] → 0 ≤ K →
  find_near_matches_substitutions subsequence subsequence K
  = Ok [mkMatch 0 (length subsequence) 0] ∧
  find_near_matches_substitutions_linear_programming subsequence subsequence K
  = ([mkMatch 0 (length subsequence) 0], None).
Proof.
  intros Hne ?. split.
  - destruct (decide (K = 0)) as [->|].
    + unfold find_near_matches_substitutions.
      rewrite !decide_False by (done || lia). rewrite decide_True by done.
      rewrite (NoDup_singleton_eq
                 (search_exact subsequence subsequence 0 (length subsequence))
                 0); [done|apply search_exact_NoDup|].
      intros i. rewrite elem_of_search_exact. split; [lia|].
      intros ->. split_and!; try lia. rewrite Z.add_0_l. apply slice_all.
    + rewrite dispatcher_positive by (done || lia).
      by rewrite brute_force_self.
  - rewrite linear_programming_brute_force by done.
    by rewrite brute_force_self.
Qed.

(** X5. Exact occurrences are always found: for a non-empty subsequence and
    [K >= 0], every window equal to the subsequence is returned with
    [dist = 0], and a match returned has [dist = 0] only if its window is
    equal to the subsequence. *)
Theorem exact_occurrences_found subsequence sequence (K : Z) :
  subsequence ≠ [] → 0 ≤ K →
  ∃ l, find_near_matches_substitutions subsequence sequence K = Ok l ∧
    (∀ i, 0 ≤ i ≤ length sequence - length subsequence →
          slice sequence i (i + length subsequence) = subsequence →
          mkMatch i (i + length subsequence) 0 ∈ l) ∧
    (∀ m, m ∈ l →
          dist m = 0 ↔ slice sequence (start m) (end_ m) = subsequence).
Proof.
  intros Hne HK.
  destruct (dispatcher_brute_force subsequence sequence K Hne HK)
    as (l & Hl & Hin).
  exists l. split_and!; [done| |].
  - intros i ? Hi. apply Hin, elem_of_brute_force. exists i.
    split; [done|]. apply window_match_Some.
    unfold window_dist. rewrite Hi, mismatches_refl. split; [done|lia].
  - intros m (? & ? & ? & -> & ?)%Hin%brute_force_good.
    rewrite mismatches_0_iff; [done|].
    apply Nat2Z.inj. rewrite length_slice; lia.
Qed.

(** X6. The route the dispatcher takes does not show in its result: for a
    non-empty subsequence and [0 < K < len(S)], the dispatcher, the ngram
    search and the collected ring-counter matcher return the same list. *)
Theorem routes_agree subsequence sequence (K : Z) :
  subsequence ≠ [] → 0 < K < length subsequence →
  find_near_matches_substitutions subsequence sequence K
  = find_near_matches_substitutions_ngrams subsequence sequence K ∧
  find_near_matches_substitutions subsequence sequence K
  = collect (find_near_matches_substitutions_linear_programming
               subsequence sequence K).
Proof.
  intros Hne ?. rewrite dispatcher_positive by (done || lia).
  rewrite ngrams_brute_force by lia.
  by rewrite linear_programming_brute_force.
Qed.

(** X7. For a non-empty subsequence and [K > 0], whichever matcher the
    dispatcher picks, the list it returns is in strictly increasing order of
    start (so no start comes twice) and has at most
    [len(T) - len(S) + 1] matches. *)
Theorem dispatcher_in_order subsequence sequence (K : Z) :
  subsequence ≠ [] → 0 < K →
  ∃ l, find_near_matches_substitutions subsequence sequence K = Ok l ∧
    StronglySorted (λ a b, start a < start b) l ∧
    Z.of_nat (length l) ≤ Z.max 0 (length sequence - length subsequence + 1).
Proof.
  intros Hne ?. exists (brute_force subsequence sequence K). split_and!.
  - by apply dispatcher_positive.
  - apply brute_force_StronglySorted.
  - apply length_brute_force.
Qed.

(** X8. The errors of the ngram entry points, for a non-empty subsequence:
    a budget of [-1] is a division by zero, a budget of [len(S)] or more is
    the [ValueError] about the length, raised before anything is yielded;
    every other budget raises nothing. *)
Theorem ngrams_errors subsequence sequence (K : Z) :
  subsequence ≠ [] →
  (K = -1 →
   find_near_matches_substitutions_ngrams subsequence sequence K
   = Raise ZeroDivisionError ∧
   has_near_match_substitutions_ngrams subsequence sequence K
   = Raise ZeroDivisionError) ∧
  (length subsequence ≤ K →
   _find_near_matches_substitutions_ngrams subsequence sequence K
   = ([], Some BudgetExceedsLength) ∧
   find_near_matches_substitutions_ngrams subsequence sequence K
   = Raise BudgetExceedsLength ∧
   has_near_match_substitutions_ngrams subsequence sequence K
   = Raise BudgetExceedsLength) ∧
  (K < length subsequence → K ≠ -1 →
   (∃ l, find_near_matches_substitutions_ngrams subsequence sequence K
         = Ok l) ∧
   (∃ b, has_near_match_substitutions_ngrams subsequence sequence K
         = Ok b)).
Proof.
  intros Hne. split_and!.
  - intros ->. done.
  - intros ?.
    assert (_find_near_matches_substitutions_ngrams subsequence sequence K
            = ([], Some BudgetExceedsLength)) as Hraw.
    { unfold _find_near_matches_substitutions_ngrams.
      rewrite decide_False by lia. rewrite Z.div_small by lia.
      by rewrite decide_True. }
    unfold find_near_matches_substitutions_ngrams,
      has_near_match_substitutions_ngrams.
    by rewrite Hraw.
  - intros ??.
    destruct (ngrams_raw_validation subsequence sequence K Hne)
      as [_ [ys Hys]]; [done|].
    unfold find_near_matches_substitutions_ngrams,
      has_near_match_substitutions_ngrams, collect.
    rewrite Hys. simpl. split.
    + destruct (foldl keep_first (∅, []) ys). by eexists.
    + destruct ys; by eexists.
Qed.

(** X9. The dictionary the ring-counter matcher builds from the subsequence:
    an element that does not occur in the subsequence has no entry, and
    reading it gives the empty list; the entry of an element lists the
    positions where the subsequence has it, all of them, in increasing
    order. *)
Theorem char_indexes_positions subsequence c :
  (char_indexes_in_subsequence subsequence !! c = None ↔ c ∉ subsequence) ∧
  (c ∉ subsequence → char_indexes_in_subsequence subsequence !!! c = []) ∧
  StronglySorted lt (char_indexes_in_subsequence subsequence !!! c) ∧
  (∀ j, j ∈ char_indexes_in_subsequence subsequence !!! c
        ↔ subsequence !! j = Some c).
Proof.
  assert (char_indexes_in_subsequence subsequence !! c = None
          ↔ c ∉ subsequence) as Hnone.
  { unfold char_indexes_in_subsequence, enumerate.
    induction subsequence as [|x l IH] using rev_ind.
    { simpl. rewrite lookup_empty. split; [intros _; apply not_elem_of_nil|
                                           done]. }
    rewrite imap_app, foldl_app. simpl.
    rewrite lookup_insert_None, IH, not_elem_of_app, list_elem_of_singleton.
    split; intros [??]; split; (done || congruence). }
  destruct (char_indexes_spec subsequence c) as [_ Hin].
  split_and!; [done| | |done].
  - intros Hc%Hnone. by rewrite lookup_total_alt, Hc.
  - clear Hnone Hin. revert c.
    induction subsequence as [|x l IH] using rev_ind; intros c.
    { unfold char_indexes_in_subsequence. simpl.
      rewrite lookup_total_empty. constructor. }
    destruct (char_indexes_spec l c) as [_ Hin].
    unfold char_indexes_in_subsequence, enumerate in *.
    rewrite imap_app, foldl_app. simpl. rewrite Nat.add_0_r.
    destruct (decide (x = c)) as [->|].
    + rewrite lookup_total_insert_eq. apply StronglySorted_app_2.
      * intros j1 j2 Hj1%Hin ->%list_elem_of_singleton.
        by apply lookup_lt_Some in Hj1.
      * apply IH.
      * repeat constructor.
    + rewrite lookup_total_insert_ne by done. apply IH.
Qed.

(** X10. The invariant of the first loop of the ring-counter matcher. After
    the first [k] items of the sequence, [k < len(S)], the loop has raised
    nothing, the ring has [k + 1] counters, and counter [j] holds the number
    of places where the first [j] items of the subsequence agree with the
    [j] items of the sequence before position [k]. *)
Theorem warm_up_counters subsequence sequence (k : nat) :
  (k < length subsequence)%nat → (k ≤ length sequence)%nat →
  ∃ c,
    warm_up (length subsequence) (char_indexes_in_subsequence subsequence)
      (take k (enumerate sequence)) [0] = Ok c ∧
    length c = S k ∧
    ∀ j : nat, (j ≤ k)%nat →
      c !! j = Some (j - mismatches (take j subsequence)
                           (slice sequence (k - j)%nat k)).
Proof.
  intros ??.
  pose proof (warm_up_spec subsequence sequence k 0) as Hw.
  rewrite drop_0 in Hw. change (ring subsequence sequence 1 0) with [0] in Hw.
  rewrite Hw by lia. simpl. eexists. split_and!; [done| |].
  - apply length_ring.
  - intros j ?. rewrite lookup_ring by lia.
    rewrite agree_mismatches by lia. do 3 f_equal.
    replace (Z.of_nat k) with (Z.of_nat (k - j) + Z.of_nat j) by lia.
    rewrite slice_take_drop by lia. by rewrite !Nat2Z.id.
Qed.

(** Among the values that a duplicate-free list maps to, those that only
    one item can give are counted once if the item is there. *)
Lemma length_filter_omap_point {X Y} `{EqDecision X}
    (fn : X → option Y) (P : Y → Prop) `{∀ y, Decision (P y)}
    (l : list X) (h0 : X) :
  NoDup l →
  (∀ h y, h ∈ l → fn h = Some y → P y ↔ h = h0) →
  (h0 ∈ l → is_Some (fn h0)) →
  length (filter P (omap fn l)) = if decide (h0 ∈ l) then 1%nat else 0%nat.
Proof.
  induction l as [|h l IH]; intros Hnd HP Hsome.
  { by rewrite decide_False by apply not_elem_of_nil. }
  apply NoDup_cons in Hnd as [Hh Hnd].
  assert (length (filter P (omap fn l))
          = if decide (h0 ∈ l) then 1%nat else 0%nat) as IH'.
  { apply IH; [done| |].
    - intros h' y ?. apply HP. by right.
    - intros Hl. apply Hsome. by right. }
  assert (omap fn (h :: l)
          = match fn h with
            | Some y => y :: omap fn l
            | None => omap fn l
            end) as -> by done.
  destruct (fn h) as [y|] eqn:Hy.
  - destruct (decide (P y)) as [Hp|Hp].
    + rewrite filter_cons_True by done. simpl.
      assert (h = h0) as -> by (by eapply HP; [left|..]).
      rewrite IH', decide_False by done.
      by rewrite decide_True by left.
    + rewrite filter_cons_False by done. rewrite IH'.
      assert (h ≠ h0) by (intros ->; apply Hp; eapply HP; [left|done..]).
      apply decide_ext. rewrite elem_of_cons. split; [auto|].
      intros [?|?]; [congruence|done].
  - assert (h ≠ h0).
    { intros ->. destruct Hsome as [y Hy']; [left|]. congruence. }
    rewrite IH'. apply decide_ext. rewrite elem_of_cons. split; [auto|].
    intros [?|?]; [congruence|done].
Qed.

(** One fragment yields a valid window once if the fragment stands
    unchanged in it, and not at all otherwise. *)
Lemma ngram_hits_multiplicity subsequence sequence (K g f i : Z) :
  0 ≤ K → 0 < g → 0 ≤ f → f + g ≤ length subsequence →
  valid_window subsequence sequence K i →
  length (filter (λ m, start m = i)
            (ngram_hits subsequence sequence K g f))
  = length (filter (λ f, slice subsequence f (f + g)
                         = slice sequence (i + f) (i + f + g)) [f]).
Proof.
  intros ???? [Hi Hd]. unfold ngram_hits.
  set (se := search_exact _ _ _ _).
  assert (∀ h, h ∈ se ↔
            0 ≤ h ≤ length sequence ∧ f ≤ h ∧
            h - f + length subsequence ≤ length sequence ∧
            slice sequence h (h + g) = slice subsequence f (f + g)) as Hse.
  { intros h. unfold se. rewrite elem_of_search_exact.
    rewrite length_slice by lia.
    replace (f + g - f) with g by lia.
    split; intros (?&?&?&?); split_and!; (done || lia). }
  rewrite (omap_ext_elem_of _
             (λ h, window_match subsequence sequence K (h - f))).
  2:{ intros h (?&?&?&?)%Hse. by apply check_hit_window. }
  rewrite (length_filter_omap_point _ _ _ (i + f)).
  - destruct (decide (slice subsequence f (f + g)
                      = slice sequence (i + f) (i + f + g))) as [Hq|Hq].
    + rewrite filter_cons_True by done. rewrite decide_True; [done|].
      apply Hse. split_and!; (done || lia).
    + rewrite filter_cons_False by done. rewrite decide_False; [done|].
      intros (?&?&?&?)%Hse. done.
  - apply search_exact_NoDup.
  - intros h y _ [-> _]%window_match_Some. simpl. lia.
  - intros _. replace (i + f - f) with i by lia.
    unfold window_match. rewrite decide_True by done. by eexists.
Qed.

(** X11. How often the raw ngram enumeration yields a window. For
    [len(S) > K >= 0] and a valid window start [i], the number of matches
    yielded with start [i] is the number of fragments of the subsequence that
    stand unchanged in the window, which is at least one: it is to these
    repeats that [find_near_matches_substitutions_ngrams] owes its
    deduplication. *)
Theorem ngrams_raw_multiplicity subsequence sequence (K i : Z) :
  0 ≤ K < length subsequence →
  valid_window subsequence sequence K i →
  ∃ ys starts,
    _find_near_matches_substitutions_ngrams subsequence sequence K
    = (ys, None) ∧
    ngram_starts (length subsequence) (length subsequence `div` (K + 1))
    = Ok starts ∧
    length (filter (λ m, start m = i) ys)
    = length (filter
                (λ f, slice subsequence f
                        (f + length subsequence `div` (K + 1))
                      = slice sequence (i + f)
                          (i + f + length subsequence `div` (K + 1)))
                starts) ∧
    (1 ≤ length (filter (λ m, start m = i) ys))%nat.
Proof.
  intros HK Hvalid.
  destruct (ngrams_raw_brute_force subsequence sequence K HK)
    as (ys & Hraw & Hys).
  pose proof Hraw as Hraw'.
  unfold _find_near_matches_substitutions_ngrams in Hraw'.
  destruct (ngram_len_bounds (length subsequence) K HK) as [Hg HgL].
  set (g := Z.of_nat (length subsequence) `div` (K + 1)) in *.
  rewrite !decide_False in Hraw' by lia.
  destruct (ngram_starts (length subsequence) g) as [starts|] eqn:Hstarts;
    [|done].
  injection Hraw' as <-.
  exists (starts ≫= ngram_hits subsequence sequence K g), starts.
  split_and!; [done..| |].
  - assert (Forall (λ f, 0 ≤ f ∧ f + g ≤ length subsequence) starts) as Hall.
    { apply Forall_forall. intros f Hf.
      apply (elem_of_ngram_starts (length subsequence) g) in Hf
        as (k & ? & -> & ?); [|done..]. nia. }
    clear Hstarts Hys Hraw.
    induction Hall as [|f l [??] Hl IH]; [done|].
    change ((f :: l) ≫= ngram_hits subsequence sequence K g)
      with (ngram_hits subsequence sequence K g f
            ++ (l ≫= ngram_hits subsequence sequence K g)).
    change (f :: l) with ([f] ++ l).
    rewrite !filter_app, !length_app, IH.
    by rewrite ngram_hits_multiplicity by (done || lia).
  - destruct Hvalid as [? Hd].
    assert (mkMatch i (i + length subsequence)
              (window_dist subsequence sequence i)
            ∈ filter (λ m, start m = i)
                (starts ≫= ngram_hits subsequence sequence K g)) as Hin.
    { apply list_elem_of_filter. split; [done|].
      apply Hys, elem_of_brute_force. exists i. split; [done|].
      by apply window_match_Some. }
    destruct (filter _ _); [by apply elem_of_nil in Hin|simpl; lia].
Qed.

(** X12. Matches move with the sequence: of what the ring-counter matcher
    yields on a sequence with more put in front, the matches that start at
    or after the old beginning are the matches on the sequence alone, with
    [start] and [end] raised by the length of what was put in front and
    [dist] unchanged. *)
Theorem linear_programming_shift subsequence front sequence (K : Z) :
  subsequence ≠ [] →
  filter (λ m, length front ≤ start m)
    (find_near_matches_substitutions_linear_programming
       subsequence (front ++ sequence) K).1
  = (λ m, mkMatch (start m + length front) (end_ m + length front) (dist m))
      <$> (find_near_matches_substitutions_linear_programming
             subsequence sequence K).1.
Proof.
  intros Hne. rewrite !linear_programming_brute_force by done. simpl.
  apply brute_force_shift.
Qed.

End further_properties.

(** ** Instances of the further properties *)

Lemma linear_programming_in_order_witness :
  [1; 2; 3]%nat ≠ [] ∧
  ∃ l,
    find_near_matches_substitutions_linear_programming
      [1; 2; 3]%nat [1; 2; 4; 1; 2; 3]%nat 1 = (l, None) ∧
    StronglySorted (λ a b, start a < start b) l ∧
    Z.of_nat (length l)
    ≤ Z.max 0 (length [1; 2; 4; 1; 2; 3]%nat - length [1; 2; 3]%nat + 1).
Proof.
  split; [done|].
  by apply (linear_programming_in_order
              [1; 2; 3]%nat [1; 2; 4; 1; 2; 3]%nat 1).
Defined.

Lemma linear_programming_streams_witness :
  [1; 2; 3]%nat ≠ [] ∧
  (find_near_matches_substitutions_linear_programming
     [1; 2; 3]%nat [1; 2; 4; 1]%nat 1).1
  `prefix_of`
  (find_near_matches_substitutions_linear_programming
     [1; 2; 3]%nat ([1; 2; 4; 1]%nat ++ [2; 3]%nat) 1).1.
Proof.
  split; [done|].
  by apply (linear_programming_streams
              [1; 2; 3]%nat [1; 2; 4; 1]%nat [2; 3]%nat 1).
Defined.

Lemma smaller_budget_filters_witness :
  [1; 2; 3]%nat ≠ [] ∧ 0 ≤ 1 ∧
  (find_near_matches_substitutions_linear_programming
     [1; 2; 3]%nat [1; 2; 4; 1; 2; 3]%nat 0).1
  = filter (λ m, dist m ≤ 0)
      (find_near_matches_substitutions_linear_programming
         [1; 2; 3]%nat [1; 2; 4; 1; 2; 3]%nat 1).1.
Proof.
  split; [done|]. split; [lia|].
  apply (smaller_budget_filters
           [1; 2; 3]%nat [1; 2; 4; 1; 2; 3]%nat 0 1); [done|lia].
Defined.

Lemma search_in_itself_witness :
  [1; 2; 3]%nat ≠ [] ∧ 0 ≤ 0 ∧
  find_near_matches_substitutions [1; 2; 3]%nat [1; 2; 3]%nat 0
  = Ok [mkMatch 0 (length [1; 2; 3]%nat) 0].
Proof.
  split; [done|]. split; [lia|].
  apply (search_in_itself [1; 2; 3]%nat 0); [done|lia].
Defined.

Lemma exact_occurrences_found_witness :
  [1; 2; 3]%nat ≠ [] ∧ 0 ≤ 1 ∧
  ∃ l, find_near_matches_substitutions
         [1; 2; 3]%nat [1; 2; 4; 1; 2; 3]%nat 1 = Ok l ∧
    (∀ i, 0 ≤ i ≤ length [1; 2; 4; 1; 2; 3]%nat - length [1; 2; 3]%nat →
          slice [1; 2; 4; 1; 2; 3]%nat i (i + length [1; 2; 3]%nat)
          = [1; 2; 3]%nat →
          mkMatch i (i + length [1; 2; 3]%nat) 0 ∈ l) ∧
    (∀ m, m ∈ l →
          dist m = 0
          ↔ slice [1; 2; 4; 1; 2; 3]%nat (start m) (end_ m)
            = [1; 2; 3]%nat).
Proof.
  split; [done|]. split; [lia|].
  apply (exact_occurrences_found
           [1; 2; 3]%nat [1; 2; 4; 1; 2; 3]%nat 1); [done|lia].
Defined.

Lemma routes_agree_witness :
  [1; 2; 3]%nat ≠ [] ∧ 0 < 1 < length [1; 2; 3]%nat ∧
  find_near_matches_substitutions [1; 2; 3]%nat [1; 2; 4; 1; 2; 3]%nat 1
  = find_near_matches_substitutions_ngrams
      [1; 2; 3]%nat [1; 2; 4; 1; 2; 3]%nat 1 ∧
  find_near_matches_substitutions [1; 2; 3]%nat [1; 2; 4; 1; 2; 3]%nat 1
  = collect (find_near_matches_substitutions_linear_programming
               [1; 2; 3]%nat [1; 2; 4; 1; 2; 3]%nat 1).
Proof.
  split; [done|]. split; [simpl; lia|].
  apply (routes_agree [1; 2; 3]%nat [1; 2; 4; 1; 2; 3]%nat 1);
    [done|simpl; lia].
Defined.

Lemma dispatcher_in_order_witness :
  [1; 2; 3; 4; 5; 6]%nat ≠ [] ∧ 0 < 1 ∧
  ∃ l, find_near_matches_substitutions
         [1; 2; 3; 4; 5; 6]%nat
         [1; 2; 3; 4; 5; 6; 0; 1; 2; 3; 0; 5; 6]%nat 1 = Ok l ∧
    StronglySorted (λ a b, start a < start b) l ∧
    Z.of_nat (length l)
    ≤ Z.max 0 (length [1; 2; 3; 4; 5; 6; 0; 1; 2; 3; 0; 5; 6]%nat
               - length [1; 2; 3; 4; 5; 6]%nat + 1).
Proof.
  split; [done|]. split; [lia|].
  apply (dispatcher_in_order
           [1; 2; 3; 4; 5; 6]%nat
           [1; 2; 3; 4; 5; 6; 0; 1; 2; 3; 0; 5; 6]%nat 1); [done|lia].
Defined.

Lemma ngrams_errors_witness :
  [1; 2; 3]%nat ≠ [] ∧ length [1; 2; 3]%nat ≤ 3 ∧
  _find_near_matches_substitutions_ngrams [1; 2; 3]%nat [1; 2; 3]%nat 3
  = ([], Some BudgetExceedsLength) ∧
  find_near_matches_substitutions_ngrams [1; 2; 3]%nat [1; 2; 3]%nat 3
  = Raise BudgetExceedsLength ∧
  has_near_match_substitutions_ngrams [1; 2; 3]%nat [1; 2; 3]%nat 3
  = Raise BudgetExceedsLength.
Proof.
  split; [done|]. split; [simpl; lia|].
  destruct (ngrams_errors [1; 2; 3]%nat [1; 2; 3]%nat 3) as (_ & Hb & _);
    [done|].
  apply Hb. simpl. lia.
Defined.

Lemma char_indexes_positions_witness :
  (3%nat ∉ [1; 2; 1]%nat) ∧
  char_indexes_in_subsequence [1; 2; 1]%nat !!! 3%nat = [].
Proof.
  assert (3%nat ∉ [1; 2; 1]%nat) as Hnot.
  { rewrite !not_elem_of_cons. split_and!; try lia. apply not_elem_of_nil. }
  split; [exact Hnot|].
  destruct (char_indexes_positions [1; 2; 1]%nat 3%nat) as (_ & Hempty & _).
  apply Hempty, Hnot.
Defined.

Lemma warm_up_counters_witness :
  (2 < length [1; 2; 1]%nat)%nat ∧ (2 ≤ length [1; 1; 2]%nat)%nat ∧
  ∃ c,
    warm_up (length [1; 2; 1]%nat)
      (char_indexes_in_subsequence [1; 2; 1]%nat)
      (take 2 (enumerate [1; 1; 2]%nat)) [0] = Ok c ∧
    length c = 3%nat ∧
    ∀ j : nat, (j ≤ 2)%nat →
      c !! j = Some (j - mismatches (take j [1; 2; 1]%nat)
                           (slice [1; 1; 2]%nat (2 - j)%nat 2%nat)).
Proof.
  split; [simpl; lia|]. split; [simpl; lia|].
  apply (warm_up_counters [1; 2; 1]%nat [1; 1; 2]%nat 2); simpl; lia.
Defined.

Lemma ngrams_raw_multiplicity_witness :
  0 ≤ 1 < length [1; 2; 3; 4; 5; 6]%nat ∧
  valid_window [1; 2; 3; 4; 5; 6]%nat [1; 2; 3; 4; 5; 6; 0]%nat 1 0 ∧
  ∃ ys starts,
    _find_near_matches_substitutions_ngrams
      [1; 2; 3; 4; 5; 6]%nat [1; 2; 3; 4; 5; 6; 0]%nat 1 = (ys, None) ∧
    ngram_starts (length [1; 2; 3; 4; 5; 6]%nat)
      (length [1; 2; 3; 4; 5; 6]%nat `div` (1 + 1)) = Ok starts ∧
    length (filter (λ m, start m = 0) ys)
    = length (filter
                (λ f, slice [1; 2; 3; 4; 5; 6]%nat f
                        (f + length [1; 2; 3; 4; 5; 6]%nat `div` (1 + 1))
                      = slice [1; 2; 3; 4; 5; 6; 0]%nat (0 + f)
                          (0 + f
                           + length [1; 2; 3; 4; 5; 6]%nat `div` (1 + 1)))
                starts) ∧
    (1 ≤ length (filter (λ m, start m = 0) ys))%nat.
Proof.
  assert (valid_window [1; 2; 3; 4; 5; 6]%nat [1; 2; 3; 4; 5; 6; 0]%nat 1 0)
    as Hvalid by (split; [simpl; lia|by vm_compute]).
  split; [simpl; lia|]. split; [exact Hvalid|].
  apply (ngrams_raw_multiplicity
           [1; 2; 3; 4; 5; 6]%nat [1; 2; 3; 4; 5; 6; 0]%nat 1 0);
    [simpl; lia|exact Hvalid].
Defined.

Lemma linear_programming_shift_witness :
  [1; 2]%nat ≠ [] ∧
  filter (λ m, length [1; 2; 0]%nat ≤ start m)
    (find_near_matches_substitutions_linear_programming
       [1; 2]%nat ([1; 2; 0]%nat ++ [3; 1; 2]%nat) 1).1
  = (λ m, mkMatch (start m + length [1; 2; 0]%nat)
            (end_ m + length [1; 2; 0]%nat) (dist m))
      <$> (find_near_matches_substitutions_linear_programming
             [1; 2]%nat [3; 1; 2]%nat 1).1.
Proof.
  split; [done|].
  by apply (linear_programming_shift [1; 2]%nat [1; 2; 0]%nat [3; 1; 2]%nat 1).
Defined.

(** The raw enumeration where both fragments stand unchanged in the window
    at [0]: the window comes twice. *)
Example ngrams_raw_twice :
  (_find_near_matches_substitutions_ngrams
     [1; 2; 3; 4; 5; 6]%nat [1; 2; 3; 4; 5; 6; 0]%nat 1).1
  = [mkMatch 0 6 0; mkMatch 0 6 0].
Proof. vm_compute. reflexivity. Qed.
